(** * flagpp: a registry of feature flags (include/flagpp.hpp)

    A shallow embedding of the header's three classes ([Value], [Flag],
    [FlagRegistry]) and of the free functions of namespace [flags], with the
    properties of the registry proved over it.

    Modelling choices.
    - [std::variant<bool, int, double, std::string>] is the inductive
      [FlagValue]; a template parameter [T] ranging over the four
      alternatives is a [Kind], and a C++ value of type [T] is an element of
      [carrier T].
    - [int] is the 32-bit two's-complement integer of the usual data models
      (ILP32, LP64, LLP64).  It is a [Z] in [INT_MIN, INT_MAX]; [to_int] is
      the conversion of an integer to [int], the identity on that range.
    - [double] is Rocq's binary64 [float]; the library only copies doubles.
    - [std::shared_ptr<Flag>] is an address into a heap of [Flag] objects,
      so that two handles to one flag are the same address and an update
      made through one is seen through the other.  [nullptr] is [None].
    - The reader/writer locks make every member function atomic; the model
      is the sequential behaviour of the calls, one after the other. *)

From Stdlib Require Import ZArith Floats.PrimFloat.
From stdpp Require Import gmap strings list fin_maps pretty.

Local Open Scope Z_scope.

(** ** FlagValue and Value *)

Definition INT_BITS : Z := 32.
Definition INT_MIN : Z := - 2 ^ (INT_BITS - 1).
Definition INT_MAX : Z := 2 ^ (INT_BITS - 1) - 1.

(** Conversion of an integer of any width to [int]: reduction modulo
    [2 ^ INT_BITS] into [INT_MIN, INT_MAX]. *)
Definition to_int (z : Z) : Z :=
  (z - INT_MIN) mod 2 ^ INT_BITS + INT_MIN.

Definition is_int (z : Z) : Prop := INT_MIN ≤ z ≤ INT_MAX.

(** The range of a signed 64-bit integer ([long long], [std::int64_t]). *)
Definition INT64_MIN : Z := - 2 ^ 63.
Definition INT64_MAX : Z := 2 ^ 63 - 1.
Definition is_int64 (z : Z) : Prop := INT64_MIN ≤ z ≤ INT64_MAX.

(** [using FlagValue = std::variant<bool, int, double, std::string>] *)
Inductive FlagValue : Type :=
  | FV_bool (b : bool)
  | FV_int (i : Z)
  | FV_double (d : float)
  | FV_string (s : string).

(** The alternatives, used where the source has a template parameter. *)
Inductive Kind : Type := KBool | KInt | KDouble | KString.

Definition carrier (K : Kind) : Type :=
  match K with
  | KBool => bool
  | KInt => Z
  | KDouble => float
  | KString => string
  end.

(** The alternative a variant currently holds ([std::variant::index]). *)
Definition kind_of (v : FlagValue) : Kind :=
  match v with
  | FV_bool _ => KBool
  | FV_int _ => KInt
  | FV_double _ => KDouble
  | FV_string _ => KString
  end.

(** The alternative [T] of the variant holding [x]. *)
Definition alternative (K : Kind) : carrier K → FlagValue :=
  match K with
  | KBool => FV_bool
  | KInt => FV_int
  | KDouble => FV_double
  | KString => FV_string
  end.

(** An argument bound to a by-value parameter of type [T]
    ([T default_value], [T new_value], [T value]) is converted to [T]: an
    integer becomes an [int]; the other three types hold every element of
    their carrier. *)
Definition as_param (K : Kind) : carrier K → carrier K :=
  match K with
  | KInt => to_int
  | _ => λ x, x
  end.

(** [FlagValue(std::move(x))] for the parameter [x] of type [T]: the
    converting constructor selects the alternative [T]. *)
Definition FlagValue_of (K : Kind) (x : carrier K) : FlagValue :=
  alternative K (as_param K x).

(** A value of type [T] as the C++ type has it. *)
Definition valid (K : Kind) : carrier K → Prop :=
  match K with
  | KInt => is_int
  | _ => λ _, True
  end.

(** [std::holds_alternative<T>(value_)] *)
Definition holds_alternative (K : Kind) (v : FlagValue) : bool :=
  match K, v with
  | KBool, FV_bool _ | KInt, FV_int _
  | KDouble, FV_double _ | KString, FV_string _ => true
  | _, _ => false
  end.

(** [Value] wraps one [FlagValue]; [Value::get<T>()]. *)
Definition Value_get (K : Kind) (v : FlagValue) : option (carrier K) :=
  match K return option (carrier K) with
  | KBool => match v with FV_bool b => Some b | _ => None end
  | KInt => match v with FV_int i => Some i | _ => None end
  | KDouble => match v with FV_double d => Some d | _ => None end
  | KString => match v with FV_string s => Some s | _ => None end
  end.

(** [Value::operator bool()] and its three siblings. *)
Definition Value_to_bool (v : FlagValue) : bool :=
  match Value_get KBool v with Some b => b | None => false end.

Definition Value_to_int (v : FlagValue) : Z :=
  match Value_get KInt v with Some i => i | None => 0 end.

Definition Value_to_double (v : FlagValue) : float :=
  match Value_get KDouble v with Some d => d | None => 0%float end.

Definition Value_to_string (v : FlagValue) : string :=
  match Value_get KString v with Some s => s | None => EmptyString end.

(** ** Flag *)

(** The three data members of [class Flag]; [mutex_] has no sequential
    content. *)
Record Flag : Type := mkFlag {
  name_ : string;
  value_ : FlagValue;
  description_ : string
}.

(** [Flag::Flag(name, default_value, description)] *)
Definition Flag_new (name : string) (default_value : FlagValue)
    (description : string) : Flag :=
  {| name_ := name; value_ := default_value; description_ := description |}.

(** [Flag::name()], [Flag::description()], [Flag::value()] *)
Definition Flag_name (f : Flag) : string := name_ f.
Definition Flag_description (f : Flag) : string := description_ f.
Definition Flag_value (f : Flag) : FlagValue := value_ f.

(** [Flag::update<T>(new_value)]: [value_ = FlagValue(std::move(new_value))];
    the other two members are not assigned. *)
Definition Flag_update (K : Kind) (new_value : carrier K) (f : Flag) : Flag :=
  {| name_ := name_ f;
     value_ := FlagValue_of K new_value;
     description_ := description_ f |}.

(** ** The heap of flags and the registry *)

(** A non-null [std::shared_ptr<Flag>]: the address of the [Flag] it points
    to.  The [n]-th object that [std::make_shared<Flag>] created lives at
    address [n]; the registry keeps every flag alive, so no address is ever
    freed or reused. *)
Abbreviation Handle := nat.

(** The singleton [FlagRegistry] with the objects its map points to. *)
Record State : Type := mkState {
  heap : list Flag;
  flags_ : gmap string nat
}.

(** [static FlagRegistry registry;] default-constructed on first use. *)
Definition instance : State := {| heap := []; flags_ := ∅ |}.

(** [*h] for a handle [h]. *)
Definition deref (h : Handle) (σ : State) : option Flag := heap σ !! h.

(** [h->update(new_value)] through a handle.  Every handle the registry
    hands out is valid; at an address outside the heap, which no caller can
    hold, the model changes nothing. *)
Definition handle_update (K : Kind) (h : Handle) (new_value : carrier K)
    (σ : State) : State :=
  {| heap := alter (Flag_update K new_value) h (heap σ);
     flags_ := flags_ σ |}.

(** [FlagRegistry::define<T>(name, default_value, description)] *)
Definition define (K : Kind) (name : string) (default_value : carrier K)
    (description : string) (σ : State) : Handle * State :=
  match flags_ σ !! name with
  | Some it => (it, σ)
  | None =>
      let flag := length (heap σ) in
      (flag,
       {| heap := heap σ ++
                  [Flag_new name (FlagValue_of K default_value) description];
          flags_ := <[name := flag]> (flags_ σ) |})
  end.

(** [FlagRegistry::get(name)]; [None] is [nullptr]. *)
Definition get (name : string) (σ : State) : option Handle :=
  flags_ σ !! name.

(** [FlagRegistry::exists(name)] *)
Definition exists_ (name : string) (σ : State) : bool :=
  match flags_ σ !! name with Some _ => true | None => false end.

(** [FlagRegistry::update<T>(name, value)] *)
Definition update (K : Kind) (name : string) (value : carrier K)
    (σ : State) : bool * State :=
  match get name σ with
  | None => (false, σ)
  | Some flag => (true, handle_update K flag value σ)
  end.

(** [FlagRegistry::get_all()].  The iteration order of an
    [std::unordered_map] is unspecified; the model iterates in the order of
    [map_to_list], and nothing below depends on it. *)
Definition get_all (σ : State) : list Handle :=
  (map_to_list (flags_ σ)).*2.

(** ** Namespace [flags]

    [flags::define], [flags::get], [flags::exists], [flags::update] and
    [flags::get_all] forward to the singleton and are the functions above. *)

(** [*get(name)], the flag registered under [name], and
    [get(name)->value()], where [get(name)] is not null. *)
Definition lookup_flag (name : string) (σ : State) : option Flag :=
  flag ← get name σ; deref flag σ.

Definition stored_value (name : string) (σ : State) : option FlagValue :=
  Flag_value <$> lookup_flag name σ.

(** [flags::is_enabled(name)] *)
Definition is_enabled (name : string) (σ : State) : bool :=
  match get name σ with
  | Some flag =>
      match deref flag σ with
      | Some f => Value_to_bool (Flag_value f)
      | None => false
      end
  | None => false
  end.

(** [flags::get_value<T>(name)] *)
Definition get_value (K : Kind) (name : string) (σ : State)
    : option (carrier K) :=
  match get name σ with
  | None => None
  | Some flag => f ← deref flag σ; Value_get K (Flag_value f)
  end.

(** [flag->name()] for each [flag] of [get_all()], in order, as the loop of
    the "Get all flags" test reads them. *)
Definition get_all_names (σ : State) : list string :=
  omap (λ flag, Flag_name <$> deref flag σ) (get_all σ).

(** ** Call sequences *)

(** The calls that change the state: the two mutating member functions of
    the registry and [Flag::update] through a handle. *)
Inductive Op : Type :=
  | OpDefine (K : Kind) (name : string) (default_value : carrier K)
      (description : string)
  | OpUpdate (K : Kind) (name : string) (value : carrier K)
  | OpHandleUpdate (K : Kind) (h : Handle) (value : carrier K).

Definition exec (σ : State) (op : Op) : State :=
  match op with
  | OpDefine K name v d => (define K name v d σ).2
  | OpUpdate K name v => (update K name v σ).2
  | OpHandleUpdate K h v => handle_update K h v σ
  end.

Definition run (ops : list Op) (σ : State) : State := foldl exec σ ops.

(** The states of the registry a program can be in. *)
Definition reachable (σ : State) : Prop := ∃ ops, σ = run ops instance.

(** The arguments of the first [define] of [n] in a call sequence. *)
Fixpoint first_define (n : string) (ops : list Op)
    : option (FlagValue * string) :=
  match ops with
  | [] => None
  | OpDefine K name v d :: ops' =>
      if decide (name = n) then Some (FlagValue_of K v, d)
      else first_define n ops'
  | _ :: ops' => first_define n ops'
  end.

(** Every entry of the map points to a live flag that carries the entry's
    key as its name. *)
Definition registry_ok (σ : State) : Prop :=
  ∀ n h, flags_ σ !! n = Some h → ∃ f, heap σ !! h = Some f ∧ name_ f = n.

(** Every stored [int] is an [int]. *)
Definition value_ok (v : FlagValue) : Prop :=
  match v with FV_int i => is_int i | _ => True end.

Definition heap_ok (σ : State) : Prop :=
  ∀ h f, heap σ !! h = Some f → value_ok (value_ f).

(** ** The registry as a map from names to flags *)

(** What the registry holds, without the handles: the flag each name
    leads to. *)
Definition flag_map (σ : State) : gmap string Flag :=
  omap (λ h, heap σ !! h) (flags_ σ).

(** The reference behaviour of [define] and [update] on such a map:
    insert if absent, and assign the value in place. *)
Definition map_define (K : Kind) (n : string) (v : carrier K) (d : string)
    (m : gmap string Flag) : gmap string Flag :=
  match m !! n with
  | Some _ => m
  | None => <[n := Flag_new n (FlagValue_of K v) d]> m
  end.

Definition map_update (K : Kind) (n : string) (v : carrier K)
    (m : gmap string Flag) : gmap string Flag :=
  alter (Flag_update K v) n m.

(** The value of the last call in [ops] that assigns the flag named [n],
    whose handle is [h]: an [update] of [n] or a [Flag::update] through
    [h].  [define] assigns no existing flag. *)
Definition write_of (n : string) (h : Handle) (op : Op) : option FlagValue :=
  match op with
  | OpDefine _ _ _ _ => None
  | OpUpdate K m v => if decide (m = n) then Some (FlagValue_of K v) else None
  | OpHandleUpdate K h' v =>
      if decide (h' = h) then Some (FlagValue_of K v) else None
  end.

Fixpoint last_write (n : string) (h : Handle) (ops : list Op)
    : option FlagValue :=
  match ops with
  | [] => None
  | op :: ops' =>
      match last_write n h ops' with
      | Some v => Some v
      | None => write_of n h op
      end
  end.

Definition is_define (op : Op) : bool :=
  match op with OpDefine _ _ _ _ => true | _ => false end.

(** The four conversion operators of [Value] applied to one value. *)
Definition conversions (v : FlagValue) : bool * Z * float * string :=
  (Value_to_bool v, Value_to_int v, Value_to_double v, Value_to_string v).

(** [static_cast<T>(value)] for each of the four types, and the value each
    operator returns when the variant holds another type. *)
Definition static_cast (K : Kind) : FlagValue → carrier K :=
  match K with
  | KBool => Value_to_bool
  | KInt => Value_to_int
  | KDouble => Value_to_double
  | KString => Value_to_string
  end.

Definition cast_default (K : Kind) : carrier K :=
  match K with
  | KBool => false
  | KInt => 0
  | KDouble => 0%float
  | KString => EmptyString
  end.

(** ** examples/thread_safety.cpp *)

(** The three [define] calls at the start of [main]. *)
Definition thread_safety_defines : list Op :=
  [OpDefine KBool "dark_mode" false "Enable dark mode UI";
   OpDefine KInt "max_connections" 100 "Maximum number of connections";
   OpDefine KString "api_endpoint" "https://api.example.com"
     "API endpoint URL"].

(** The registry calls of one iteration [i] of the loop of
    [writer_thread]; [std::to_string(i)] is the decimal numeral of [i]. *)
Definition writer_iteration (i : nat) : list Op :=
  [OpUpdate KBool "dark_mode" (Z.of_nat i mod 2 =? 0);
   OpUpdate KInt "max_connections" (100 + Z.of_nat i);
   OpUpdate KString "api_endpoint"
     ("https://api" +:+ pretty (Z.of_nat i) +:+ ".example.com")].

(** [writer_thread(id, iterations)]: the registry calls it makes, in order,
    for [i = 0 .. iterations - 1].  The counter, the sleep and the output
    do not touch the registry. *)
Definition writer_thread (iterations : nat) : list Op :=
  flat_map writer_iteration (seq 0 iterations).

(** The condition under which one iteration of [reader_thread] counts:
    [dark_mode && max_conn && endpoint]. *)
Definition reader_counts (σ : State) : bool :=
  is_enabled "dark_mode" σ
  && bool_decide (is_Some (get_value KInt "max_connections" σ))
  && bool_decide (is_Some (get_value KString "api_endpoint" σ)).

(** The orders in which the calls of two threads can take effect, each
    thread's calls in its program order.  An [update] takes effect at one
    point: it looks the name up in the map, which no [update] changes, and
    assigns the value under the flag's own lock. *)
Inductive interleaving : list Op → list Op → list Op → Prop :=
  | interleaving_nil : interleaving [] [] []
  | interleaving_l op l1 l2 l :
      interleaving l1 l2 l → interleaving (op :: l1) l2 (op :: l)
  | interleaving_r op l1 l2 l :
      interleaving l1 l2 l → interleaving l1 (op :: l2) (op :: l).

(** The scenarios of the test suite and of examples/basic_usage.cpp. *)
Definition basic_usage : State :=
  run [OpDefine KBool "dark_mode" true "Enable dark mode UI";
       OpDefine KInt "max_connections" 100 "Maximum number of connections";
       OpDefine KString "api_endpoint" "https://api.example.com"
         "API endpoint URL";
       OpDefine KDouble "timeout_seconds" 30.5%float
         "Connection timeout in seconds"] instance.

Example basic_usage_reads :
  is_enabled "dark_mode" basic_usage = true ∧
  get_value KInt "max_connections" basic_usage = Some 100 ∧
  get_value KDouble "max_connections" basic_usage = None ∧
  get_value KDouble "timeout_seconds" basic_usage = Some 30.5%float ∧
  get_value KInt "max_connections"
    (update KInt "max_connections" 200 basic_usage).2 = Some 200 ∧
  is_enabled "dark_mode" (update KBool "dark_mode" false basic_usage).2
    = false ∧
  length (get_all basic_usage) = 4%nat.
Proof. vm_compute. repeat split. Qed.

(** ** Values *)

Lemma to_int_is_int (z : Z) : is_int (to_int z).
Proof.
  unfold is_int, to_int, INT_MIN, INT_MAX, INT_BITS.
  pose proof (Z.mod_pos_bound (z - - 2 ^ (32 - 1)) (2 ^ 32)) as Hb.
  change (2 ^ (32 - 1)) with 2147483648 in *.
  change (2 ^ 32) with 4294967296 in *. lia.
Qed.

Lemma to_int_id (z : Z) : is_int z → to_int z = z.
Proof.
  unfold is_int, to_int, INT_MIN, INT_MAX, INT_BITS.
  change (2 ^ (32 - 1)) with 2147483648.
  change (2 ^ 32) with 4294967296.
  intros Hz. rewrite Z.mod_small; lia.
Qed.

Lemma to_int_fixed (z : Z) : to_int z = z ↔ is_int z.
Proof.
  split; [intros <-; apply to_int_is_int | apply to_int_id].
Qed.

Lemma valid_as_param (K : Kind) (x : carrier K) :
  valid K x ↔ as_param K x = x.
Proof. destruct K; simpl; try done. symmetry. apply to_int_fixed. Qed.

Lemma kind_of_alternative (K : Kind) (x : carrier K) :
  kind_of (alternative K x) = K.
Proof. by destruct K. Qed.

Lemma kind_of_FlagValue_of (K : Kind) (x : carrier K) :
  kind_of (FlagValue_of K x) = K.
Proof. apply kind_of_alternative. Qed.

Lemma value_ok_FlagValue_of (K : Kind) (x : carrier K) :
  value_ok (FlagValue_of K x).
Proof. destruct K; simpl; auto using to_int_is_int. Qed.

Lemma holds_alternative_kind (K : Kind) (v : FlagValue) :
  holds_alternative K v = true ↔ kind_of v = K.
Proof. destruct K, v; simpl; split; congruence. Qed.

Lemma Value_get_Some (K : Kind) (v : FlagValue) (x : carrier K) :
  Value_get K v = Some x ↔ v = alternative K x.
Proof. destruct K; simpl in *; destruct v; split; congruence. Qed.

Lemma Value_get_is_Some (K : Kind) (v : FlagValue) :
  is_Some (Value_get K v) ↔ kind_of v = K.
Proof.
  split.
  - intros [x Hx]. apply Value_get_Some in Hx as ->.
    apply kind_of_alternative.
  - intros <-. destruct v; simpl; eauto.
Qed.

Lemma Value_get_holds (K : Kind) (v : FlagValue) :
  is_Some (Value_get K v) ↔ holds_alternative K v = true.
Proof. by rewrite Value_get_is_Some, holds_alternative_kind. Qed.

Lemma Value_get_other (K J : Kind) (v : FlagValue) :
  kind_of v = K → J ≠ K → Value_get J v = None.
Proof.
  intros Hk HJ. apply eq_None_not_Some. rewrite Value_get_is_Some.
  congruence.
Qed.

Lemma Value_get_FlagValue_of (K : Kind) (x : carrier K) :
  Value_get K (FlagValue_of K x) = Some (as_param K x).
Proof. by apply Value_get_Some. Qed.

Lemma Value_get_valid (K : Kind) (x : carrier K) :
  valid K x → Value_get K (FlagValue_of K x) = Some x.
Proof.
  intros Hx%valid_as_param. by rewrite Value_get_FlagValue_of, Hx.
Qed.

Lemma Value_to_bool_true (v : FlagValue) :
  Value_to_bool v = true ↔ v = FV_bool true.
Proof.
  unfold Value_to_bool. destruct v as [[]| | |]; simpl; split; congruence.
Qed.

(** ** The invariant of the registry *)

Lemma registry_ok_instance : registry_ok instance.
Proof. intros n h. unfold instance; simpl. by rewrite lookup_empty. Qed.

Lemma deref_handle_update (K : Kind) (h h' : Handle) (v : carrier K)
    (σ : State) :
  deref h' (handle_update K h v σ) =
    if decide (h = h') then Flag_update K v <$> deref h' σ else deref h' σ.
Proof.
  unfold deref, handle_update; simpl. case_decide as Hh.
  - subst h'. apply list_lookup_alter_eq.
  - by apply list_lookup_alter_ne.
Qed.

Lemma registry_ok_handle_update (K : Kind) (h : Handle) (v : carrier K)
    (σ : State) :
  registry_ok σ → registry_ok (handle_update K h v σ).
Proof.
  intros Hok n h' Hn. destruct (Hok n h' Hn) as (f & Hf & Hname).
  fold (deref h' (handle_update K h v σ)). rewrite deref_handle_update.
  unfold deref. rewrite Hf. case_decide; simpl; eauto.
Qed.

Lemma registry_ok_define (K : Kind) (n : string) (v : carrier K)
    (d : string) (σ : State) :
  registry_ok σ → registry_ok (define K n v d σ).2.
Proof.
  intros Hok. unfold define. destruct (flags_ σ !! n) as [it|] eqn:Hn;
    simpl; [done|].
  intros m h; simpl. rewrite lookup_insert. case_decide as Hm.
  - intros [= <-]. subst m. eexists. split; [by apply list_lookup_middle | done].
  - intros Hmh. destruct (Hok m h Hmh) as (f & Hf & Hname).
    exists f. split; [by apply lookup_app_l_Some | done].
Qed.

Lemma registry_ok_update (K : Kind) (n : string) (v : carrier K)
    (σ : State) :
  registry_ok σ → registry_ok (update K n v σ).2.
Proof.
  intros Hok. unfold update. destruct (get n σ); simpl; [|done].
  by apply registry_ok_handle_update.
Qed.

Lemma registry_ok_exec (op : Op) (σ : State) :
  registry_ok σ → registry_ok (exec σ op).
Proof.
  destruct op; simpl;
    auto using registry_ok_define, registry_ok_update,
      registry_ok_handle_update.
Qed.

Lemma registry_ok_run (ops : list Op) (σ : State) :
  registry_ok σ → registry_ok (run ops σ).
Proof.
  revert σ. induction ops as [|op ops IH]; intros σ Hok; simpl; [done|].
  apply IH. by apply registry_ok_exec.
Qed.

Lemma reachable_ok (σ : State) : reachable σ → registry_ok σ.
Proof. intros [ops ->]. apply registry_ok_run, registry_ok_instance. Qed.

Lemma reachable_instance : reachable instance.
Proof. by exists []. Qed.

Lemma reachable_exec (op : Op) (σ : State) :
  reachable σ → reachable (exec σ op).
Proof.
  intros [ops ->]. exists (ops ++ [op]). unfold run. by rewrite foldl_app.
Qed.

Lemma reachable_run (ops : list Op) (σ : State) :
  reachable σ → reachable (run ops σ).
Proof.
  intros [ops0 ->]. exists (ops0 ++ ops). unfold run. by rewrite foldl_app.
Qed.

(** Two names never share a flag. *)
Lemma registry_ok_inj (σ : State) (n m : string) (h : Handle) :
  registry_ok σ → get n σ = Some h → get m σ = Some h → n = m.
Proof.
  intros Hok Hn Hm.
  destruct (Hok n h Hn) as (f & Hf & <-).
  destruct (Hok m h Hm) as (f' & Hf' & <-). congruence.
Qed.

(** ** The registry's operations *)

Lemma exists_true (n : string) (σ : State) :
  exists_ n σ = true ↔ is_Some (get n σ).
Proof.
  unfold exists_, get. destruct (flags_ σ !! n); split; eauto; try done.
Qed.

Lemma exists_false (n : string) (σ : State) :
  exists_ n σ = false ↔ get n σ = None.
Proof. unfold exists_, get. by destruct (flags_ σ !! n). Qed.

Lemma define_existing (K : Kind) (n : string) (v : carrier K) (d : string)
    (σ : State) (h : Handle) :
  get n σ = Some h → define K n v d σ = (h, σ).
Proof. unfold get, define. by intros ->. Qed.

Lemma get_define (K : Kind) (n : string) (v : carrier K) (d : string)
    (σ : State) :
  get n (define K n v d σ).2 = Some (define K n v d σ).1.
Proof.
  unfold get, define. destruct (flags_ σ !! n) eqn:Hn; simpl; [done|].
  apply lookup_insert_eq.
Qed.

(** A second [define] of a name finds the entry of the first. *)
Lemma define_again (K1 K2 : Kind) (n : string) (v1 : carrier K1)
    (v2 : carrier K2) (d1 d2 : string) (σ : State) :
  define K2 n v2 d2 (define K1 n v1 d1 σ).2 = define K1 n v1 d1 σ.
Proof.
  rewrite (define_existing K2 n v2 d2 _ _ (get_define K1 n v1 d1 σ)).
  by destruct (define K1 n v1 d1 σ).
Qed.

Lemma lookup_flag_define_fresh (K : Kind) (n : string) (v : carrier K)
    (d : string) (σ : State) :
  get n σ = None →
  lookup_flag n (define K n v d σ).2 = Some (Flag_new n (FlagValue_of K v) d).
Proof.
  unfold lookup_flag, get, define, deref. intros ->; simpl.
  rewrite lookup_insert_eq; simpl. by apply list_lookup_middle.
Qed.

Lemma registry_ok_lookup_flag (σ : State) (n : string) (h : Handle) :
  registry_ok σ → get n σ = Some h →
  ∃ f, deref h σ = Some f ∧ lookup_flag n σ = Some f ∧ Flag_name f = n.
Proof.
  intros Hok Hn. destruct (Hok n h Hn) as (f & Hf & Hname).
  exists f. unfold lookup_flag. rewrite Hn; simpl. eauto.
Qed.

Lemma lookup_flag_update (K : Kind) (n : string) (v : carrier K)
    (σ : State) :
  lookup_flag n (update K n v σ).2 = Flag_update K v <$> lookup_flag n σ.
Proof.
  unfold lookup_flag, update. destruct (get n σ) as [h|] eqn:Hn; simpl.
  - change (get n (handle_update K h v σ)) with (get n σ). rewrite Hn; simpl.
    rewrite deref_handle_update. by rewrite decide_True.
  - by rewrite Hn.
Qed.

Lemma get_value_stored (K : Kind) (n : string) (σ : State) :
  get_value K n σ = stored_value n σ ≫= Value_get K.
Proof.
  unfold get_value, stored_value, lookup_flag. destruct (get n σ); simpl;
    [|done].
  by destruct (deref _ σ).
Qed.

Lemma is_enabled_stored (n : string) (σ : State) :
  is_enabled n σ = from_option Value_to_bool false (stored_value n σ).
Proof.
  unfold is_enabled, stored_value, lookup_flag. destruct (get n σ); simpl;
    [|done].
  by destruct (deref _ σ).
Qed.

Lemma stored_value_update (K : Kind) (n : string) (v : carrier K)
    (σ : State) :
  registry_ok σ → exists_ n σ = true →
  stored_value n (update K n v σ).2 = Some (FlagValue_of K v).
Proof.
  intros Hok [h Hn]%exists_true.
  destruct (registry_ok_lookup_flag σ n h Hok Hn) as (f & _ & Hf & _).
  unfold stored_value. by rewrite lookup_flag_update, Hf.
Qed.

(** ** Enumeration *)

Lemma elem_of_get_all (σ : State) (h : Handle) :
  h ∈ get_all σ ↔ ∃ n, get n σ = Some h.
Proof.
  unfold get_all, get. rewrite list_elem_of_fmap. split.
  - intros ([n h'] & -> & Hin%elem_of_map_to_list). by exists n.
  - intros [n Hn]. exists (n, h). split; [done|].
    by apply elem_of_map_to_list.
Qed.

Lemma length_get_all (σ : State) : length (get_all σ) = size (flags_ σ).
Proof. unfold get_all. by rewrite length_fmap, length_map_to_list. Qed.

Lemma NoDup_get_all (σ : State) : registry_ok σ → NoDup (get_all σ).
Proof.
  intros Hok. unfold get_all.
  apply NoDup_fmap_2_strong; [|apply NoDup_map_to_list].
  intros [n h] [m h'] Hn%elem_of_map_to_list Hm%elem_of_map_to_list Heq.
  simpl in Heq; subst h'. f_equal. by apply (registry_ok_inj σ n m h).
Qed.

(** The handle enumerated for a name is the one registered under it. *)
Lemma get_all_name (σ : State) (h : Handle) (f : Flag) :
  registry_ok σ → h ∈ get_all σ → deref h σ = Some f →
  get (Flag_name f) σ = Some h.
Proof.
  intros Hok [m Hm]%elem_of_get_all Hf.
  destruct (registry_ok_lookup_flag σ m h Hok Hm) as (f' & Hf' & _ & <-).
  congruence.
Qed.

(** The "Flag value type checking" and "Flag updating" test cases. *)
Example type_checking_tests :
  let σ := run [OpDefine KBool "type_bool" true "";
                OpDefine KString "type_string" "hello" "";
                OpDefine KBool "update_bool" false "";
                OpDefine KDouble "update_double" 1.5%float ""] instance in
  get_value KBool "type_bool" σ = Some true ∧
  get_value KInt "type_bool" σ = None ∧
  get_value KDouble "type_bool" σ = None ∧
  get_value KString "type_bool" σ = None ∧
  get_value KString "type_string" σ = Some "hello" ∧
  get_value KBool "type_string" σ = None ∧
  is_enabled "update_bool" σ = false ∧
  is_enabled "update_bool" (update KBool "update_bool" true σ).2 = true ∧
  get_value KDouble "update_double"
    (update KDouble "update_double" 2.5%float σ).2 = Some 2.5%float ∧
  (update KBool "non_existent" true σ).1 = false ∧
  get "non_existent" σ = None.
Proof. vm_compute. repeat split. Qed.

Lemma basic_usage_reachable : reachable basic_usage.
Proof. by eexists. Qed.

(** ** Properties of the registry *)

(** C1.  [define] is idempotent by name.  Of two calls
    [define(n, v1, d1)], [define(n, v2, d2)] the second returns the handle
    of the first and changes nothing, its arguments are discarded.  The
    registry holds one flag per name: an enumerated handle whose flag is
    named [n] is that handle, and the enumeration has no duplicate.  When
    the first call is the one that defines [n], the flag has the value [v1]
    and the description [d1] after both calls, and [get_value] reads [v1]
    back. *)
Theorem define_idempotent (K1 K2 : Kind) (n : string) (v1 : carrier K1)
    (v2 : carrier K2) (d1 d2 : string) (σ : State) :
  reachable σ →
  let r1 := define K1 n v1 d1 σ in
  let r2 := define K2 n v2 d2 r1.2 in
  r2.1 = r1.1 ∧ r2.2 = r1.2 ∧
  get n r2.2 = Some r1.1 ∧
  (∀ h f, h ∈ get_all r2.2 → deref h r2.2 = Some f → Flag_name f = n →
     h = r1.1) ∧
  NoDup (get_all r2.2) ∧
  (exists_ n σ = false →
     deref r1.1 r2.2 = Some (Flag_new n (FlagValue_of K1 v1) d1) ∧
     stored_value n r2.2 = Some (FlagValue_of K1 v1) ∧
     Flag_description <$> lookup_flag n r2.2 = Some d1 ∧
     (valid K1 v1 → get_value K1 n r2.2 = Some v1)).
Proof.
  intros Hreach r1 r2.
  assert (r2 = r1) as -> by apply define_again. subst r1.
  assert (registry_ok (define K1 n v1 d1 σ).2) as Hok
    by by apply registry_ok_define, reachable_ok.
  pose proof (get_define K1 n v1 d1 σ) as Hget.
  split; [done|]. split; [done|]. split; [done|].
  split; [|split; [by apply NoDup_get_all|]].
  { intros h f Hin Hf <-.
    pose proof (get_all_name _ h f Hok Hin Hf). congruence. }
  intros Hfresh%exists_false.
  pose proof (lookup_flag_define_fresh K1 n v1 d1 σ Hfresh) as Hflag.
  assert (stored_value n (define K1 n v1 d1 σ).2
          = Some (FlagValue_of K1 v1)) as Hval
    by (unfold stored_value; by rewrite Hflag).
  split; [|split; [done|split]].
  - unfold lookup_flag in Hflag. by rewrite Hget in Hflag.
  - by rewrite Hflag.
  - intros Hv. rewrite get_value_stored, Hval; simpl.
    by apply Value_get_valid.
Qed.

Lemma define_idempotent_witness :
  let r1 := define KBool "test_bool" true "Test boolean flag" basic_usage in
  let r2 := define KInt "test_bool" 42 "Test integer flag" r1.2 in
  r2.1 = r1.1 ∧ get_value KBool "test_bool" r2.2 = Some true.
Proof.
  pose proof (define_idempotent KBool KInt "test_bool" true 42
                "Test boolean flag" "Test integer flag" basic_usage
                basic_usage_reachable) as (H1 & _ & _ & _ & _ & H2).
  split; [exact H1|].
  destruct (H2 eq_refl) as (_ & _ & _ & H3). exact (H3 I).
Defined.

(** C2.  Round trip.  For each of the four kinds [K], each value [v] of
    type [K] and each name [n]: after [define(n, v)] of a name that was not
    defined, and after [update(n, v)] of a name that was, [get_value<K>(n)]
    is [v]. *)
Theorem round_trip (K : Kind) (n : string) (v : carrier K) (d : string)
    (σ : State) :
  reachable σ →
  valid K v →
  (exists_ n σ = false → get_value K n (define K n v d σ).2 = Some v) ∧
  (exists_ n σ = true → get_value K n (update K n v σ).2 = Some v).
Proof.
  intros Hok%reachable_ok Hv. split.
  - intros Hfresh%exists_false.
    rewrite get_value_stored. unfold stored_value.
    rewrite lookup_flag_define_fresh by done. simpl.
    by apply Value_get_valid.
  - intros Hn. rewrite get_value_stored, stored_value_update by done.
    by apply Value_get_valid.
Qed.

Lemma round_trip_witness :
  get_value KInt "update_int" (define KInt "update_int" 100 "" instance).2
    = Some 100 ∧
  get_value KInt "max_connections"
    (update KInt "max_connections" 200 basic_usage).2 = Some 200.
Proof.
  assert (valid KInt 100 ∧ valid KInt 200) as [H100 H200]
    by (split; split; discriminate).
  split.
  - exact (proj1 (round_trip KInt "update_int" 100 "" instance
                    reachable_instance H100) eq_refl).
  - exact (proj2 (round_trip KInt "max_connections" 200 "" basic_usage
                    basic_usage_reachable H200) eq_refl).
Defined.

(** In a reachable state a registered name has a flag, hence a value. *)
Lemma exists_stored_value (n : string) (σ : State) :
  registry_ok σ → exists_ n σ = true ↔ is_Some (stored_value n σ).
Proof.
  intros Hok. rewrite exists_true. unfold stored_value. split.
  - intros [h Hn].
    destruct (registry_ok_lookup_flag σ n h Hok Hn) as (f & _ & -> & _).
    by eexists.
  - intros [v Hv]. unfold lookup_flag in Hv.
    destruct (get n σ); [by eexists | done].
Qed.

(** C3.  Kind isolation.  [get_value<T>(n)] has a value exactly when the
    flag [n] exists and the value it stores has kind [T], and that value is
    the stored one; for a flag storing kind [K], [get_value<J>(n)] is empty
    for every [J] other than [K]; for an undefined name, [get_value<T>(n)]
    is empty. *)
Theorem get_value_kind_isolation (T : Kind) (n : string) (σ : State) :
  reachable σ →
  (is_Some (get_value T n σ) ↔
     exists_ n σ = true ∧ kind_of <$> stored_value n σ = Some T) ∧
  (∀ x, get_value T n σ = Some x ↔
          stored_value n σ = Some (alternative T x)) ∧
  (∀ K J v, stored_value n σ = Some v → kind_of v = K → J ≠ K →
            get_value J n σ = None) ∧
  (exists_ n σ = false → get_value T n σ = None).
Proof.
  intros Hok%reachable_ok. rewrite get_value_stored.
  split; [|split; [|split]].
  - rewrite (exists_stored_value n σ Hok).
    destruct (stored_value n σ) as [v|]; simpl.
    + rewrite Value_get_is_Some. split; [intros ->; eauto|].
      by intros [_ [= ->]].
    + split; [by intros [? ?] | by intros [_ ?]].
  - intros x. destruct (stored_value n σ) as [v|]; simpl; [|done].
    rewrite Value_get_Some. split; congruence.
  - intros K J v Hv Hk HJ. rewrite get_value_stored, Hv; simpl.
    by apply (Value_get_other K).
  - intros Hn%exists_false. unfold stored_value, lookup_flag.
    by rewrite Hn.
Qed.

Lemma get_value_kind_isolation_witness :
  get_value KInt "max_connections" basic_usage = Some 100 ∧
  get_value KDouble "max_connections" basic_usage = None ∧
  get_value KInt "non_existent" basic_usage = None.
Proof.
  pose proof (get_value_kind_isolation KInt "max_connections" basic_usage
                basic_usage_reachable) as (_ & Hsome & Hother & _).
  pose proof (get_value_kind_isolation KInt "non_existent" basic_usage
                basic_usage_reachable) as (_ & _ & _ & Hnone).
  split; [|split].
  - by apply Hsome.
  - by apply (Hother KInt KDouble (FV_int 100)).
  - by apply Hnone.
Defined.

(** C4.  [update(n, v)] returns whether [n] is defined.  For an undefined
    name it returns [false] and leaves the registry as it was, [n] still
    undefined; for a defined name it returns [true] and the flag stores
    [v]: its value is the alternative of the type of [v] holding [v], and
    [get_value] at that type reads [v], and nothing at any other type. *)
Theorem update_found_iff (K : Kind) (n : string) (v : carrier K)
    (σ : State) :
  reachable σ →
  (update K n v σ).1 = exists_ n σ ∧
  (exists_ n σ = false →
     update K n v σ = (false, σ) ∧ exists_ n (update K n v σ).2 = false) ∧
  (exists_ n σ = true →
     (update K n v σ).1 = true ∧
     stored_value n (update K n v σ).2 = Some (FlagValue_of K v) ∧
     (valid K v →
        stored_value n (update K n v σ).2 = Some (alternative K v) ∧
        get_value K n (update K n v σ).2 = Some v ∧
        ∀ J, J ≠ K → get_value J n (update K n v σ).2 = None)).
Proof.
  intros Hok%reachable_ok.
  assert ((update K n v σ).1 = exists_ n σ) as Hret.
  { unfold update, exists_, get. by destruct (flags_ σ !! n). }
  split; [done|]. split.
  - intros Hn. pose proof Hn as Hget%exists_false.
    unfold update. rewrite Hget. by split.
  - intros Hn. split; [congruence|].
    pose proof (stored_value_update K n v σ Hok Hn) as Hst.
    split; [done|]. intros Hv. pose proof Hv as Hv'%valid_as_param.
    split; [|split].
    + rewrite Hst. unfold FlagValue_of. by rewrite Hv'.
    + rewrite get_value_stored, Hst. simpl. by apply Value_get_valid.
    + intros J HJ. rewrite get_value_stored, Hst. simpl.
      apply (Value_get_other K); [apply kind_of_FlagValue_of | done].
Qed.

Lemma update_found_iff_witness :
  update KBool "non_existent" true basic_usage = (false, basic_usage) ∧
  stored_value "max_connections"
    (update KInt "max_connections" 200 basic_usage).2 = Some (FV_int 200) ∧
  get_value KInt "max_connections"
    (update KInt "max_connections" 200 basic_usage).2 = Some 200 ∧
  get_value KString "dark_mode"
    (update KString "dark_mode" "on" basic_usage).2 = Some "on".
Proof.
  assert (valid KInt 200) as Hv by (split; discriminate).
  split; [|split; [|split]].
  - exact (proj1 (proj1 (proj2 (update_found_iff KBool "non_existent" true
                                  basic_usage basic_usage_reachable))
                    eq_refl)).
  - exact (proj1 (proj2 (proj2 (proj2 (proj2
             (update_found_iff KInt "max_connections" 200
                basic_usage basic_usage_reachable)) eq_refl)) Hv)).
  - exact (proj1 (proj2 (proj2 (proj2 (proj2 (proj2
             (update_found_iff KInt "max_connections" 200
                basic_usage basic_usage_reachable)) eq_refl)) Hv))).
  - exact (proj1 (proj2 (proj2 (proj2 (proj2 (proj2
             (update_found_iff KString "dark_mode" "on"
                basic_usage basic_usage_reachable)) eq_refl)) I))).
Defined.

(** C5.  [is_enabled(n)] is [true] exactly when the flag [n] exists and
    stores the boolean [true].  It is [false] for an undefined name, for a
    flag whose value is not a boolean, and for a flag storing [false]; the
    result does not tell these three apart. *)
Theorem is_enabled_iff (n : string) (σ : State) :
  reachable σ →
  (is_enabled n σ = true ↔
     exists_ n σ = true ∧ stored_value n σ = Some (FV_bool true)) ∧
  (exists_ n σ = false → is_enabled n σ = false) ∧
  (∀ v, stored_value n σ = Some v → kind_of v ≠ KBool →
        is_enabled n σ = false) ∧
  (stored_value n σ = Some (FV_bool false) → is_enabled n σ = false).
Proof.
  intros Hok%reachable_ok. rewrite is_enabled_stored.
  split; [|split; [|split]].
  - rewrite (exists_stored_value n σ Hok).
    destruct (stored_value n σ) as [v|]; simpl.
    + rewrite Value_to_bool_true. split; [intros ->; eauto|].
      by intros [_ [= ->]].
    + split; [done | by intros [_ ?]].
  - intros Hn%exists_false. unfold stored_value, lookup_flag.
    by rewrite Hn.
  - intros v -> Hk. by destruct v.
  - by intros ->.
Qed.

Lemma is_enabled_iff_witness :
  is_enabled "dark_mode" basic_usage = true ∧
  is_enabled "non_existent" basic_usage = false ∧
  is_enabled "max_connections" basic_usage = false.
Proof.
  split; [|split].
  - by apply (proj1 (is_enabled_iff "dark_mode" basic_usage
                       basic_usage_reachable)).
  - by apply (proj1 (proj2 (is_enabled_iff "non_existent" basic_usage
                              basic_usage_reachable))).
  - by apply (proj1 (proj2 (proj2 (is_enabled_iff "max_connections"
                              basic_usage basic_usage_reachable)))
                (FV_int 100)).
Defined.

Lemma heap_ok_instance : heap_ok instance.
Proof. intros h f. unfold instance; simpl. by rewrite lookup_nil. Qed.

Lemma heap_ok_exec (op : Op) (σ : State) : heap_ok σ → heap_ok (exec σ op).
Proof.
  intros Hok.
  assert (∀ K h v, heap_ok (handle_update K h v σ)) as Hupd.
  { intros K h v h' f. fold (deref h' (handle_update K h v σ)).
    rewrite deref_handle_update. case_decide; [|apply Hok].
    destruct (deref h' σ); intros [= <-]. apply value_ok_FlagValue_of. }
  destruct op as [K n v d|K n v|K h v]; simpl; [| |done].
  - unfold define. destruct (flags_ σ !! n); simpl; [done|].
    intros h f [Hf|[_ Hf]]%lookup_app_Some; [by apply (Hok h)|].
    apply list_lookup_singleton_Some in Hf as [_ <-].
    apply value_ok_FlagValue_of.
  - unfold update. by destruct (get n σ); simpl.
Qed.

Lemma reachable_heap_ok (σ : State) : reachable σ → heap_ok σ.
Proof.
  intros [ops ->]. unfold run.
  induction ops as [|op ops IH] using rev_ind; [apply heap_ok_instance|].
  rewrite foldl_app. by apply heap_ok_exec.
Qed.

Lemma get_value_define_fresh (K : Kind) (n : string) (v : carrier K)
    (d : string) (σ : State) :
  exists_ n σ = false →
  get_value K n (define K n v d σ).2 = Some (as_param K v).
Proof.
  intros Hfresh%exists_false. rewrite get_value_stored. unfold stored_value.
  rewrite lookup_flag_define_fresh by done. apply Value_get_FlagValue_of.
Qed.

Lemma get_value_update (K : Kind) (n : string) (v : carrier K) (σ : State) :
  registry_ok σ → exists_ n σ = true →
  get_value K n (update K n v σ).2 = Some (as_param K v).
Proof.
  intros Hok Hn. rewrite get_value_stored, stored_value_update by done.
  apply Value_get_FlagValue_of.
Qed.

(** C6.  Kind drift.  For a flag storing a value of kind [K] and a value
    [w] of any kind [J], [update] succeeds and replaces the stored value:
    the flag then stores [w] with kind [J], [get_value<J>(n)] is [w], and
    for [J] other than [K] nothing is left to read at kind [K]. *)
Theorem kind_drift (K J : Kind) (n : string) (v : FlagValue) (w : carrier J)
    (σ : State) :
  reachable σ →
  stored_value n σ = Some v →
  kind_of v = K →
  valid J w →
  let r := update J n w σ in
  r.1 = true ∧
  stored_value n r.2 = Some (alternative J w) ∧
  kind_of <$> stored_value n r.2 = Some J ∧
  get_value J n r.2 = Some w ∧
  (J ≠ K → get_value K n r.2 = None).
Proof.
  intros Hok%reachable_ok Hv Hk Hw r.
  assert (exists_ n σ = true) as Hn
    by (apply exists_stored_value; [done | by eexists]).
  pose proof (stored_value_update J n w σ Hok Hn) as Hst. fold r in Hst.
  pose proof Hw as Hw'%valid_as_param.
  unfold FlagValue_of in Hst. rewrite Hw' in Hst.
  split; [|split; [|split; [|split]]].
  - subst r. unfold update. apply exists_true in Hn as [h ->]. done.
  - done.
  - rewrite Hst. simpl. by rewrite kind_of_alternative.
  - rewrite get_value_stored, Hst. simpl. by apply Value_get_Some.
  - intros HJK. rewrite get_value_stored, Hst. simpl.
    apply (Value_get_other J); [apply kind_of_alternative | done].
Qed.

Lemma kind_drift_witness :
  let r := update KString "max_connections" "many" basic_usage in
  get_value KInt "max_connections" basic_usage = Some 100 ∧
  r.1 = true ∧
  get_value KString "max_connections" r.2 = Some "many" ∧
  get_value KInt "max_connections" r.2 = None.
Proof.
  pose proof (kind_drift KInt KString "max_connections" (FV_int 100) "many"
                basic_usage basic_usage_reachable eq_refl eq_refl I)
    as (H1 & _ & _ & H2 & H3).
  split; [reflexivity|]. split; [exact H1|]. split; [exact H2|].
  apply H3. discriminate.
Defined.

(** C7, as the code has it.  The integer alternative is [int]: for every
    [v] in the range of [int], [define] of a new name with [v] and [update]
    of a defined name with [v] are read back by [get_value<int>] as [v];
    every integer read back from any flag is in the range of [int]. *)
Theorem int_round_trip (n : string) (v : Z) (d : string) (σ : State) :
  reachable σ →
  is_int v →
  (exists_ n σ = false →
     get_value KInt n (define KInt n v d σ).2 = Some v) ∧
  (exists_ n σ = true →
     get_value KInt n (update KInt n v σ).2 = Some v) ∧
  (∀ m x, get_value KInt m σ = Some x → is_int x).
Proof.
  intros Hreach Hv. pose proof (to_int_id v Hv) as Hid.
  split; [|split].
  - intros Hn. rewrite get_value_define_fresh by done. simpl. by rewrite Hid.
  - intros Hn. rewrite get_value_update by auto using reachable_ok.
    simpl. by rewrite Hid.
  - intros m x. unfold get_value. destruct (get m σ) as [h|]; [|done].
    destruct (deref h σ) as [f|] eqn:Hf; simpl; [|done].
    intros Hx%(Value_get_Some KInt).
    pose proof (reachable_heap_ok σ Hreach h f Hf) as Hval.
    unfold Flag_value in Hx. by rewrite Hx in Hval.
Qed.

Lemma int_round_trip_witness :
  get_value KInt "test_int"
    (define KInt "test_int" 2147483647 "" basic_usage).2
    = Some 2147483647 ∧
  get_value KInt "max_connections"
    (update KInt "max_connections" (-2147483648) basic_usage).2
    = Some (-2147483648).
Proof.
  assert (is_int 2147483647 ∧ is_int (-2147483648)) as [Hmax Hmin]
    by (split; split; discriminate).
  split.
  - exact (proj1 (int_round_trip "test_int" 2147483647 "" basic_usage
                    basic_usage_reachable Hmax) eq_refl).
  - exact (proj1 (proj2 (int_round_trip "max_connections" (-2147483648) ""
                           basic_usage basic_usage_reachable Hmin))
             eq_refl).
Defined.

(** C7 as stated fails: 2^31 and 5 * 10^9 are signed 64-bit integers;
    stored in the integer alternative and read back, they are not
    themselves. *)
Lemma int64_not_round_trip :
  is_int64 2147483648 ∧ is_int64 5000000000 ∧
  get_value KInt "big" (define KInt "big" 2147483648 "" instance).2
    = Some (-2147483648) ∧
  get_value KInt "max_connections"
    (update KInt "max_connections" 5000000000 basic_usage).2
    = Some 705032704 ∧
  ¬ (∀ v n σ, reachable σ → is_int64 v → exists_ n σ = false →
       get_value KInt n (define KInt n v "" σ).2 = Some v).
Proof.
  assert (is_int64 2147483648) as H31 by (split; discriminate).
  split; [done|]. split; [split; discriminate|].
  split; [reflexivity|]. split; [reflexivity|].
  intros H.
  specialize (H 2147483648 "big" instance reachable_instance H31 eq_refl).
  discriminate H.
Qed.

(** The names read off the enumeration are the keys of the map. *)
Lemma get_all_names_keys (σ : State) :
  registry_ok σ → get_all_names σ = (map_to_list (flags_ σ)).*1.
Proof.
  intros Hok. unfold get_all_names, get_all.
  assert (∀ n h, (n, h) ∈ map_to_list (flags_ σ) →
                 Flag_name <$> deref h σ = Some n) as Hname.
  { intros n h Hin%elem_of_map_to_list.
    destruct (Hok n h Hin) as (f & Hf & <-). unfold deref. by rewrite Hf. }
  induction (map_to_list (flags_ σ)) as [|[n h] l IH]; simpl; [done|].
  rewrite (Hname n h) by left. simpl. f_equal.
  apply IH. intros m h' Hin. apply Hname. by right.
Qed.

(** C8.  [get_all] is a complete snapshot.  It returns as many handles as
    there are defined flags, without repetition, and each is the handle
    registered under the name of its flag; the names of the returned flags
    are the defined names, each once.  Nothing is said of the order. *)
Theorem get_all_complete (σ : State) :
  reachable σ →
  length (get_all σ) = size (flags_ σ) ∧
  NoDup (get_all σ) ∧
  (∀ h, h ∈ get_all σ →
        ∃ f, deref h σ = Some f ∧ get (Flag_name f) σ = Some h) ∧
  length (get_all_names σ) = length (get_all σ) ∧
  NoDup (get_all_names σ) ∧
  (∀ n, n ∈ get_all_names σ ↔ exists_ n σ = true).
Proof.
  intros Hok%reachable_ok.
  rewrite (get_all_names_keys σ Hok), length_get_all.
  split; [done|]. split; [by apply NoDup_get_all|].
  split; [|split; [|split]].
  - intros h Hin. pose proof Hin as [n Hn]%elem_of_get_all.
    destruct (registry_ok_lookup_flag σ n h Hok Hn) as (f & Hf & _ & _).
    exists f. split; [done|]. by apply get_all_name.
  - by rewrite length_fmap, length_map_to_list.
  - apply NoDup_fst_map_to_list.
  - intros n. rewrite exists_true, list_elem_of_fmap. unfold get. split.
    + intros ([m h] & -> & Hin%elem_of_map_to_list). by exists h.
    + intros [h Hn]. exists (n, h). split; [done|].
      by apply elem_of_map_to_list.
Qed.

Lemma get_all_complete_witness :
  length (get_all basic_usage) = 4%nat ∧
  "max_connections" ∈ get_all_names basic_usage.
Proof.
  pose proof (get_all_complete basic_usage basic_usage_reachable)
    as (Hlen & _ & _ & _ & _ & Hnames).
  split; [exact Hlen|]. by apply Hnames.
Defined.

(** ** Handles over time *)

Lemma get_exec (op : Op) (σ : State) (n : string) (h : Handle) :
  get n σ = Some h → get n (exec σ op) = Some h.
Proof.
  unfold get. destruct op as [K m v d|K m v|K h' v]; simpl; try done.
  - unfold define. destruct (flags_ σ !! m) eqn:Hm; simpl; [done|].
    intros Hn. rewrite lookup_insert_ne; [done | congruence].
  - unfold update. by destruct (get m σ).
Qed.

Lemma get_exec_None (op : Op) (σ : State) (n : string) :
  get n σ = None →
  get n (exec σ op) =
    match op with
    | OpDefine K m v d =>
        if decide (m = n) then Some (length (heap σ)) else None
    | _ => None
    end.
Proof.
  unfold get. destruct op as [K m v d|K m v|K h' v]; simpl; try done.
  - unfold define. intros Hn. case_decide as Hm.
    + subst m. rewrite Hn; simpl. apply lookup_insert_eq.
    + destruct (flags_ σ !! m); simpl; [done|]. by rewrite lookup_insert_ne.
  - unfold update. by destruct (get m σ).
Qed.

(** No call renames a flag or rewrites its description. *)
Lemma deref_exec (op : Op) (σ : State) (h : Handle) (f : Flag) :
  deref h σ = Some f →
  ∃ f', deref h (exec σ op) = Some f' ∧
        Flag_name f' = Flag_name f ∧
        Flag_description f' = Flag_description f.
Proof.
  intros Hf.
  assert (∀ K h' v, ∃ f', deref h (handle_update K h' v σ) = Some f' ∧
                          Flag_name f' = Flag_name f ∧
                          Flag_description f' = Flag_description f) as Hupd.
  { intros K h' v. rewrite deref_handle_update, Hf.
    case_decide; simpl; eauto. }
  destruct op as [K m v d|K m v|K h' v]; simpl; [| |done].
  - unfold define. destruct (flags_ σ !! m); simpl; [by eauto|].
    exists f. split; [|done]. by apply lookup_app_l_Some.
  - unfold update. destruct (get m σ); simpl; eauto.
Qed.

Lemma get_run (ops : list Op) (σ : State) (n : string) (h : Handle) :
  get n σ = Some h → get n (run ops σ) = Some h.
Proof.
  revert σ. induction ops as [|op ops IH]; intros σ Hn; simpl; [done|].
  by apply IH, get_exec.
Qed.

Lemma deref_run (ops : list Op) (σ : State) (h : Handle) (f : Flag) :
  deref h σ = Some f →
  ∃ f', deref h (run ops σ) = Some f' ∧
        Flag_name f' = Flag_name f ∧
        Flag_description f' = Flag_description f.
Proof.
  revert σ f. induction ops as [|op ops IH]; intros σ f Hf; simpl;
    [by eauto|].
  destruct (deref_exec op σ h f Hf) as (f1 & Hf1 & Hn1 & Hd1).
  destruct (IH _ f1 Hf1) as (f' & Hf' & Hn' & Hd').
  exists f'. split; [done|]. split; congruence.
Qed.

(** The description of a registered flag is the one its name was first
    defined with: the flag's own, if the name is registered at the start
    of the calls, or else that of the first [define] of the name. *)
Lemma first_define_run (ops : list Op) (σ : State) (n : string)
    (h : Handle) (f : Flag) :
  registry_ok σ →
  get n (run ops σ) = Some h →
  deref h (run ops σ) = Some f →
  match get n σ with
  | Some h0 =>
      h = h0 ∧
      ∀ f0, deref h0 σ = Some f0 → Flag_description f = Flag_description f0
  | None => snd <$> first_define n ops = Some (Flag_description f)
  end.
Proof.
  revert σ. induction ops as [|op ops IH]; intros σ Hok Hn Hf; simpl in *.
  { rewrite Hn. split; [done|]. intros f0 Hf0. congruence. }
  specialize (IH (exec σ op) (registry_ok_exec op σ Hok) Hn Hf).
  destruct (get n σ) as [h0|] eqn:Hn0.
  - rewrite (get_exec op σ n h0 Hn0) in IH. destruct IH as [-> IH].
    split; [done|]. intros f0 Hf0.
    destruct (deref_exec op σ h0 f0 Hf0) as (f1 & Hf1 & _ & <-).
    by apply IH.
  - rewrite (get_exec_None op σ n Hn0) in IH.
    destruct op as [K m v d|K m v|K h' v]; try done.
    case_decide as Hm; [|done]. subst m. destruct IH as [-> IH].
    simpl. f_equal. symmetry.
    apply (IH (Flag_new n (FlagValue_of K v) d)).
    unfold exec, define, deref. unfold get in Hn0. rewrite Hn0; simpl.
    by apply list_lookup_middle.
Qed.

(** C9.  Handle identity is stable.  Let [h] be the handle a [define] of
    [n] returned.  After any further calls, [get(n)] and every [define] of
    [n] return [h], [get_all] lists [h], and an [update] of [n] through the
    registry succeeds and is read through [h]: [h->value()] is the new
    value. *)
Theorem handle_identity_stable (K : Kind) (n : string) (v : carrier K)
    (d : string) (ops : list Op) (σ : State) :
  reachable σ →
  let h := (define K n v d σ).1 in
  let σ' := run ops (define K n v d σ).2 in
  get n σ' = Some h ∧
  (∀ K' v' d', (define K' n v' d' σ').1 = h) ∧
  h ∈ get_all σ' ∧
  (∀ J w, (update J n w σ').1 = true ∧
          Flag_value <$> deref h (update J n w σ').2
            = Some (FlagValue_of J w)).
Proof.
  intros Hreach h σ'.
  assert (get n σ' = Some h) as Hget by apply get_run, get_define.
  assert (registry_ok σ') as Hok.
  { apply registry_ok_run, registry_ok_define. by apply reachable_ok. }
  split; [done|]. split; [|split].
  - intros K' v' d'. by rewrite (define_existing K' n v' d' σ' h).
  - apply elem_of_get_all. by exists n.
  - intros J w. unfold update. rewrite Hget. simpl. split; [done|].
    destruct (registry_ok_lookup_flag σ' n h Hok Hget) as (f & Hf & _ & _).
    rewrite deref_handle_update, decide_True, Hf by done. done.
Qed.

Lemma handle_identity_stable_witness :
  let σ := run [OpDefine KBool "dark_mode" true "Enable dark mode UI"]
             instance in
  let h := (define KInt "max_connections" 100
              "Maximum number of connections" σ).1 in
  get "max_connections" basic_usage = Some h ∧
  Value_get KInt
    <$> (Flag_value
           <$> deref h (update KInt "max_connections" 200 basic_usage).2)
    = Some (Some 200).
Proof.
  pose proof (handle_identity_stable KInt "max_connections" 100
                "Maximum number of connections"
                [OpDefine KString "api_endpoint" "https://api.example.com"
                   "API endpoint URL";
                 OpDefine KDouble "timeout_seconds" 30.5%float
                   "Connection timeout in seconds"]
                (run [OpDefine KBool "dark_mode" true "Enable dark mode UI"]
                   instance)
                (reachable_run _ _ reachable_instance)) as (H1 & _ & _ & H2).
  split; [exact H1|].
  destruct (H2 KInt 200) as [_ H3].
  exact (f_equal (fmap (Value_get KInt)) H3).
Defined.

(** C10.  Key and name agree, and name and description are fixed.  In the
    state after any sequence of calls on the new registry, a handle that
    [get(n)] returns points to a flag named [n] whose description is the
    one passed to the first [define] of [n]; after any further calls,
    updates included, [get(n)] is still that handle and its flag has the
    same name and the same description. *)
Theorem key_name_consistent (ops : list Op) (n : string) (h : Handle) :
  get n (run ops instance) = Some h →
  ∃ f, deref h (run ops instance) = Some f ∧
       Flag_name f = n ∧
       snd <$> first_define n ops = Some (Flag_description f) ∧
       ∀ ops',
         get n (run ops' (run ops instance)) = Some h ∧
         ∃ f', deref h (run ops' (run ops instance)) = Some f' ∧
               Flag_name f' = n ∧
               Flag_description f' = Flag_description f.
Proof.
  intros Hn.
  assert (registry_ok (run ops instance)) as Hok
    by apply registry_ok_run, registry_ok_instance.
  destruct (registry_ok_lookup_flag _ n h Hok Hn) as (f & Hf & _ & Hname).
  exists f. split; [done|]. split; [done|]. split.
  - apply (first_define_run ops instance n h f registry_ok_instance Hn Hf).
  - intros ops'. split; [by apply get_run|].
    destruct (deref_run ops' _ h f Hf) as (f' & Hf' & Hn' & Hd').
    exists f'. split; [done|]. split; congruence.
Qed.

Lemma key_name_consistent_witness :
  ∃ f, deref 1%nat basic_usage = Some f ∧
       Flag_name f = "max_connections" ∧
       Flag_description f = "Maximum number of connections" ∧
       ∃ f', deref 1%nat (update KInt "max_connections" 200 basic_usage).2
               = Some f' ∧
             Flag_description f' = "Maximum number of connections".
Proof.
  destruct (key_name_consistent
              [OpDefine KBool "dark_mode" true "Enable dark mode UI";
               OpDefine KInt "max_connections" 100
                 "Maximum number of connections";
               OpDefine KString "api_endpoint" "https://api.example.com"
                 "API endpoint URL";
               OpDefine KDouble "timeout_seconds" 30.5%float
                 "Connection timeout in seconds"]
              "max_connections" 1%nat eq_refl)
    as (f & Hf & Hname & Hdesc & Hlater).
  exists f. split; [exact Hf|]. split; [exact Hname|].
  assert (Flag_description f = "Maximum number of connections") as Hd
    by (injection Hdesc as Hd; by symmetry).
  split; [exact Hd|].
  destruct (Hlater [OpUpdate KInt "max_connections" 200])
    as (_ & f' & Hf' & _ & Hd').
  exists f'. split; [exact Hf'|]. by rewrite Hd'.
Defined.

(** ** One flag at a time: calls on one name leave the others alone *)

Lemma reads_of_lookup_flag (m : string) (σ σ' : State) :
  lookup_flag m σ' = lookup_flag m σ →
  stored_value m σ' = stored_value m σ ∧
  (∀ J, get_value J m σ' = get_value J m σ) ∧
  is_enabled m σ' = is_enabled m σ.
Proof.
  intros Heq.
  assert (stored_value m σ' = stored_value m σ) as Hst
    by (unfold stored_value; by rewrite Heq).
  split; [done|]. split.
  - intros J. by rewrite !get_value_stored, Hst.
  - by rewrite !is_enabled_stored, Hst.
Qed.

Lemma lookup_flag_handle_update_ne (K : Kind) (h : Handle) (v : carrier K)
    (m : string) (σ : State) :
  get m σ ≠ Some h →
  lookup_flag m (handle_update K h v σ) = lookup_flag m σ.
Proof.
  intros Hm. unfold lookup_flag.
  change (get m (handle_update K h v σ)) with (get m σ).
  destruct (get m σ) as [h'|]; simpl; [|done].
  rewrite deref_handle_update, decide_False; [done | congruence].
Qed.

Lemma lookup_flag_handle_update_eq (K : Kind) (h : Handle) (v : carrier K)
    (n : string) (σ : State) :
  get n σ = Some h →
  lookup_flag n (handle_update K h v σ) = Flag_update K v <$> lookup_flag n σ.
Proof.
  intros Hn. unfold lookup_flag.
  change (get n (handle_update K h v σ)) with (get n σ). rewrite Hn; simpl.
  by rewrite deref_handle_update, decide_True.
Qed.

Lemma lookup_flag_update_ne (K : Kind) (n m : string) (v : carrier K)
    (σ : State) :
  registry_ok σ → m ≠ n →
  lookup_flag m (update K n v σ).2 = lookup_flag m σ.
Proof.
  intros Hok Hmn. unfold update. destruct (get n σ) as [h|] eqn:Hn; simpl;
    [|done].
  apply lookup_flag_handle_update_ne. intros Hm.
  by apply Hmn, (registry_ok_inj σ m n h).
Qed.

Lemma lookup_flag_define_ne (K : Kind) (n m : string) (v : carrier K)
    (d : string) (σ : State) :
  registry_ok σ → m ≠ n →
  lookup_flag m (define K n v d σ).2 = lookup_flag m σ.
Proof.
  intros Hok Hmn. unfold define.
  destruct (flags_ σ !! n) eqn:Hn; simpl; [done|].
  unfold lookup_flag, get, deref; simpl. rewrite lookup_insert_ne by done.
  destruct (flags_ σ !! m) as [h|] eqn:Hm; simpl; [|done].
  destruct (Hok m h Hm) as (f & Hf & _). rewrite Hf.
  by apply lookup_app_l_Some.
Qed.

Lemma lookup_flag_define_existing (K : Kind) (n : string) (v : carrier K)
    (d : string) (σ : State) :
  exists_ n σ = true → (define K n v d σ).2 = σ.
Proof.
  intros [h Hn]%exists_true. by rewrite (define_existing K n v d σ h).
Qed.

(** X1.  An [update] of one name changes nothing under any other name:
    the other name has the same handle and the same flag, and [get_value]
    and [is_enabled] read what they read before.  Likewise a
    [Flag::update] through a handle changes nothing under a name that
    handle is not registered under. *)
Theorem update_frame (K : Kind) (n m : string) (v : carrier K) (h : Handle)
    (σ : State) :
  reachable σ →
  (m ≠ n →
     get m (update K n v σ).2 = get m σ ∧
     lookup_flag m (update K n v σ).2 = lookup_flag m σ ∧
     (∀ J, get_value J m (update K n v σ).2 = get_value J m σ) ∧
     is_enabled m (update K n v σ).2 = is_enabled m σ) ∧
  (get m σ ≠ Some h →
     lookup_flag m (handle_update K h v σ) = lookup_flag m σ ∧
     (∀ J, get_value J m (handle_update K h v σ) = get_value J m σ) ∧
     is_enabled m (handle_update K h v σ) = is_enabled m σ).
Proof.
  intros Hok%reachable_ok. split.
  - intros Hmn.
    pose proof (lookup_flag_update_ne K n m v σ Hok Hmn) as Heq.
    destruct (reads_of_lookup_flag m σ _ Heq) as (_ & Hgv & Hen).
    split; [|done]. unfold update. by destruct (get n σ).
  - intros Hm.
    pose proof (lookup_flag_handle_update_ne K h v m σ Hm) as Heq.
    by destruct (reads_of_lookup_flag m σ _ Heq) as (_ & Hgv & Hen).
Qed.

Lemma update_frame_witness :
  get_value KInt "max_connections"
    (update KBool "dark_mode" false basic_usage).2 = Some 100 ∧
  is_enabled "dark_mode" (handle_update KInt 1%nat 7 basic_usage) = true.
Proof.
  destruct (update_frame KBool "dark_mode" "max_connections" false 0%nat
              basic_usage basic_usage_reachable) as [H1 _].
  destruct (update_frame KInt "" "dark_mode" 7 1%nat
              basic_usage basic_usage_reachable) as [_ H2].
  split.
  - destruct H1 as (_ & _ & H & _); [discriminate|]. by rewrite H.
  - destruct H2 as (_ & _ & H); [discriminate|]. by rewrite H.
Defined.

(** X2.  A [define] of one name changes nothing under any other name,
    whether or not it creates a flag; a [define] of a name already defined
    changes nothing at all, so it never resets a value that was updated. *)
Theorem define_frame (K : Kind) (n m : string) (v : carrier K) (d : string)
    (σ : State) :
  reachable σ →
  (m ≠ n →
     get m (define K n v d σ).2 = get m σ ∧
     lookup_flag m (define K n v d σ).2 = lookup_flag m σ ∧
     (∀ J, get_value J m (define K n v d σ).2 = get_value J m σ) ∧
     is_enabled m (define K n v d σ).2 = is_enabled m σ) ∧
  (exists_ n σ = true → (define K n v d σ).2 = σ).
Proof.
  intros Hok%reachable_ok. split; [|apply lookup_flag_define_existing].
  intros Hmn.
  pose proof (lookup_flag_define_ne K n m v d σ Hok Hmn) as Heq.
  destruct (reads_of_lookup_flag m σ _ Heq) as (_ & Hgv & Hen).
  split; [|done]. unfold get, define.
  destruct (flags_ σ !! n); simpl; [done|]. by rewrite lookup_insert_ne.
Qed.

Lemma define_frame_witness :
  get_value KInt "max_connections"
    (define KInt "retries" 3 "" basic_usage).2 = Some 100 ∧
  (define KInt "max_connections" 0 ""
     (update KInt "max_connections" 200 basic_usage).2).2
  = (update KInt "max_connections" 200 basic_usage).2.
Proof.
  destruct (define_frame KInt "retries" "max_connections" 3 ""
              basic_usage basic_usage_reachable) as [H1 _].
  destruct (define_frame KInt "max_connections" "" 0 ""
              (update KInt "max_connections" 200 basic_usage).2
              (reachable_exec (OpUpdate KInt "max_connections" 200) _
                 basic_usage_reachable)) as [_ H2].
  split.
  - destruct H1 as (_ & _ & H & _); [discriminate|]. by rewrite H.
  - by apply H2.
Defined.

(** ** The registry is a map from names to flags *)

Lemma lookup_flag_map (σ : State) (n : string) :
  flag_map σ !! n = lookup_flag n σ.
Proof. unfold flag_map, lookup_flag, get, deref. by rewrite lookup_omap. Qed.

(** X3.  Behind its handles the registry is a finite map from names to
    flags: on that map [define] is insert-if-absent with the flag built
    from its arguments, [update] assigns the value of the entry, or does
    nothing when there is none, and the three readers read the entry. *)
Theorem registry_refines_map (K : Kind) (n : string) (v : carrier K)
    (d : string) (σ : State) :
  reachable σ →
  flag_map instance = ∅ ∧
  flag_map (define K n v d σ).2 = map_define K n v d (flag_map σ) ∧
  flag_map (update K n v σ).2 = map_update K n v (flag_map σ) ∧
  exists_ n σ = bool_decide (is_Some (flag_map σ !! n)) ∧
  is_enabled n σ
    = from_option (λ f, Value_to_bool (Flag_value f)) false
        (flag_map σ !! n) ∧
  (∀ J, get_value J n σ = flag_map σ !! n ≫= λ f, Value_get J (Flag_value f)).
Proof.
  intros Hok%reachable_ok.
  split; [by apply map_eq; intros i; rewrite lookup_flag_map|].
  split; [|split; [|split; [|split]]].
  - unfold map_define. rewrite lookup_flag_map. apply map_eq. intros m.
    destruct (lookup_flag n σ) as [f|] eqn:Hf.
    + rewrite lookup_flag_define_existing; [done|].
      apply exists_true. unfold lookup_flag in Hf.
      destruct (get n σ); [by eexists | done].
    + assert (get n σ = None) as Hn.
      { destruct (get n σ) as [h|] eqn:Hn; [|done].
        destruct (registry_ok_lookup_flag σ n h Hok Hn) as (? & _ & ? & _).
        congruence. }
      rewrite lookup_flag_map, lookup_insert. case_decide as Hm.
      * subst m. by apply lookup_flag_define_fresh.
      * rewrite lookup_flag_map. by apply lookup_flag_define_ne.
  - unfold map_update. apply map_eq. intros m.
    rewrite lookup_flag_map, lookup_alter. case_decide as Hm.
    + subst m. by rewrite lookup_flag_map, lookup_flag_update.
    + rewrite lookup_flag_map. by apply lookup_flag_update_ne.
  - rewrite lookup_flag_map. apply eq_true_iff_eq.
    rewrite bool_decide_eq_true, exists_stored_value by done.
    unfold stored_value. by rewrite fmap_is_Some.
  - rewrite lookup_flag_map, is_enabled_stored. unfold stored_value.
    by destruct (lookup_flag n σ).
  - intros J. rewrite lookup_flag_map, get_value_stored.
    unfold stored_value. by destruct (lookup_flag n σ).
Qed.

Lemma registry_refines_map_witness :
  flag_map (update KInt "max_connections" 200 basic_usage).2
    !! "max_connections"
  = Some (Flag_new "max_connections" (FV_int 200)
            "Maximum number of connections").
Proof.
  destruct (registry_refines_map KInt "max_connections" 200 ""
              basic_usage basic_usage_reachable) as (_ & _ & H & _).
  rewrite H. reflexivity.
Defined.

(** ** Composing updates *)

Lemma update_Some (K : Kind) (n : string) (h : Handle) (v : carrier K)
    (σ : State) :
  get n σ = Some h → update K n v σ = (true, handle_update K h v σ).
Proof. unfold update. by intros ->. Qed.

Lemma update_None (K : Kind) (n : string) (v : carrier K) (σ : State) :
  get n σ = None → update K n v σ = (false, σ).
Proof. unfold update. by intros ->. Qed.

Lemma Flag_update_Flag_update (K1 K2 : Kind) (v1 : carrier K1)
    (v2 : carrier K2) (f : Flag) :
  Flag_update K2 v2 (Flag_update K1 v1 f) = Flag_update K2 v2 f.
Proof. done. Qed.

(** X4.  The last update wins: two updates of one name in a row leave the
    state the second alone would leave, whatever the kinds of the two
    values; an update with the same value twice is the update once. *)
Theorem update_overwrites (K1 K2 : Kind) (n : string) (v1 : carrier K1)
    (v2 : carrier K2) (σ : State) :
  (update K2 n v2 (update K1 n v1 σ).2).2 = (update K2 n v2 σ).2 ∧
  (update K2 n v2 (update K1 n v1 σ).2).1 = (update K2 n v2 σ).1 ∧
  (update K1 n v1 (update K1 n v1 σ).2).2 = (update K1 n v1 σ).2.
Proof.
  assert (∀ J1 J2 (w1 : carrier J1) (w2 : carrier J2),
            update J2 n w2 (update J1 n w1 σ).2 = update J2 n w2 σ) as Hgen.
  { intros J1 J2 w1 w2. unfold update at 2.
    destruct (get n σ) as [h|] eqn:Hn; simpl; [|done].
    unfold update.
    change (get n (handle_update J1 h w1 σ)) with (get n σ). rewrite Hn.
    f_equal. unfold handle_update; simpl. f_equal.
    rewrite list_alter_alter_eq. by apply list_alter_ext. }
  rewrite Hgen. split; [done|]. split; [done|].
  assert ((update K1 n v1 σ).2 = (update K1 n v1 (update K1 n v1 σ).2).2)
    as <-; [|done].
  by rewrite Hgen.
Qed.

(** X5.  Updates of two different names commute: either order leaves the
    same state. *)
Theorem update_comm (K J : Kind) (n m : string) (v : carrier K)
    (w : carrier J) (σ : State) :
  reachable σ →
  n ≠ m →
  (update K n v (update J m w σ).2).2 = (update J m w (update K n v σ).2).2.
Proof.
  intros Hok%reachable_ok Hnm.
  destruct (get n σ) as [hn|] eqn:Hn; destruct (get m σ) as [hm|] eqn:Hm.
  - rewrite (update_Some J m hm w σ Hm), (update_Some K n hn v σ Hn).
    simpl. rewrite (update_Some K n hn v), (update_Some J m hm w) by done.
    unfold handle_update; simpl. f_equal.
    apply list_alter_alter_ne. intros ->.
    by apply Hnm, (registry_ok_inj σ n m hm).
  - rewrite (update_None J m w σ Hm). simpl.
    rewrite (update_Some K n hn v σ Hn). simpl.
    by rewrite (update_None J m w (handle_update K hn v σ) Hm).
  - rewrite (update_None K n v σ Hn). simpl.
    rewrite (update_Some J m hm w σ Hm). simpl.
    by rewrite (update_None K n v (handle_update J hm w σ) Hn).
  - rewrite (update_None J m w σ Hm), (update_None K n v σ Hn). simpl.
    by rewrite (update_None J m w σ Hm), (update_None K n v σ Hn).
Qed.

Lemma update_comm_witness :
  (update KBool "dark_mode" false
     (update KInt "max_connections" 200 basic_usage).2).2
  = (update KInt "max_connections" 200
       (update KBool "dark_mode" false basic_usage).2).2.
Proof.
  apply (update_comm KBool KInt "dark_mode" "max_connections" false 200
           basic_usage basic_usage_reachable).
  discriminate.
Defined.

(** X6.  A [Flag::update] made through a handle is read back by name: if
    [get(n)] is [h], then [h->update(v)] leaves the state that
    [update(n, v)] leaves, and [get_value] of [n] at the kind of [v] is
    [v]. *)
Theorem handle_update_by_name (K : Kind) (n : string) (h : Handle)
    (v : carrier K) (σ : State) :
  reachable σ →
  get n σ = Some h →
  valid K v →
  handle_update K h v σ = (update K n v σ).2 ∧
  get_value K n (handle_update K h v σ) = Some v ∧
  (∀ J, J ≠ K → get_value J n (handle_update K h v σ) = None).
Proof.
  intros Hok%reachable_ok Hn Hv.
  assert (handle_update K h v σ = (update K n v σ).2) as ->
    by (unfold update; by rewrite Hn).
  assert (exists_ n σ = true) as Hex by (apply exists_true; by eexists).
  split; [done|]. split.
  - rewrite get_value_update by done. f_equal. by apply valid_as_param.
  - intros J HJ. rewrite get_value_stored, stored_value_update by done.
    simpl. apply (Value_get_other K); [apply kind_of_FlagValue_of | done].
Qed.

Lemma handle_update_by_name_witness :
  get_value KInt "max_connections" (handle_update KInt 1%nat 250 basic_usage)
  = Some 250.
Proof.
  assert (valid KInt 250) as Hv by (split; discriminate).
  exact (proj1 (proj2 (handle_update_by_name KInt "max_connections" 1%nat
                         250 basic_usage basic_usage_reachable eq_refl Hv))).
Defined.

(** ** The conversion operators of [Value] *)

(** X7.  [is_enabled(n)] is [get_value<bool>(n)] with [false] for empty;
    and [Value::operator bool] is [true] only for the boolean [true]. *)
Theorem is_enabled_get_value (n : string) (σ : State) :
  is_enabled n σ = default false (get_value KBool n σ) ∧
  (∀ v, Value_to_bool v = true ↔ Value_get KBool v = Some true).
Proof.
  split.
  - rewrite is_enabled_stored, get_value_stored.
    by destruct (stored_value n σ).
  - intros v. rewrite Value_to_bool_true. symmetry.
    apply (Value_get_Some KBool).
Qed.

(** X8.  The four conversion operators return the stored content at the
    stored kind and the default of their type ([false], [0], [0.0], the
    empty string) at every other kind.  So they cannot tell the four
    defaults apart, and they tell every other value: two values with the
    same four conversions are equal or are both a stored default. *)
Theorem conversions_collapse (v v' : FlagValue) :
  conversions (FV_bool false) = conversions (FV_int 0) ∧
  conversions (FV_int 0) = conversions (FV_double 0%float) ∧
  conversions (FV_double 0%float) = conversions (FV_string "") ∧
  (conversions v = conversions v' →
   v = v' ∨ (conversions v = conversions (FV_bool false))) ∧
  (conversions v = conversions (FV_bool false) ↔
   v = FV_bool false ∨ v = FV_int 0 ∨ v = FV_double 0%float
   ∨ v = FV_string "").
Proof.
  split; [done|]. split; [done|]. split; [done|]. split.
  - unfold conversions, Value_to_bool, Value_to_int, Value_to_double,
      Value_to_string.
    destruct v, v'; simpl; intros Heq; simplify_eq; auto.
  - unfold conversions, Value_to_bool, Value_to_int, Value_to_double,
      Value_to_string.
    split.
    + destruct v; simpl; intros Heq; simplify_eq; auto.
    + by intros [->|[->|[->| ->]]].
Qed.

Lemma conversions_collapse_witness :
  FV_int 42 = FV_int 42 ∨ conversions (FV_int 42) = conversions (FV_bool false).
Proof.
  exact (proj1 (proj2 (proj2 (proj2 (conversions_collapse (FV_int 42)
                                       (FV_int 42))))) eq_refl).
Defined.

(** ** Which names exist *)

Lemma exists_exec (op : Op) (σ : State) (n : string) :
  exists_ n (exec σ op) =
    exists_ n σ ||
    match op with
    | OpDefine _ m _ _ => bool_decide (m = n)
    | _ => false
    end.
Proof.
  destruct (exists_ n σ) eqn:Hex; simpl.
  - apply exists_true in Hex as [h Hn]. apply exists_true.
    exists h. by apply get_exec.
  - apply exists_false in Hex.
    pose proof (get_exec_None op σ n Hex) as Hget.
    destruct op as [K m v d|K m v|K h v]; try by apply exists_false.
    case_bool_decide as Hm.
    + rewrite decide_True in Hget by done. apply exists_true. by eexists.
    + rewrite decide_False in Hget by done. by apply exists_false.
Qed.

Lemma first_define_is_Some (n : string) (ops : list Op) :
  is_Some (first_define n ops) ↔ ∃ K v d, OpDefine K n v d ∈ ops.
Proof.
  induction ops as [|op ops IH]; simpl.
  { split; [by intros [? ?] | intros (K & v & d & Hin)].
    by apply elem_of_nil in Hin. }
  assert ((∃ K v d, OpDefine K n v d ∈ op :: ops) ↔
          (∃ K v d, op = OpDefine K n v d) ∨
          (∃ K v d, OpDefine K n v d ∈ ops)) as ->.
  { split.
    - intros (K & v & d & [Heq|Hin]%elem_of_cons); [left|right]; eauto.
    - intros [(K & v & d & ->)|(K & v & d & Hin)]; exists K, v, d;
        [left | by right]. }
  destruct op as [K m v d|K m v|K h v].
  - case_decide as Hm.
    + subst m. split; [left; eauto | by eexists].
    + rewrite IH. split; [by right | intros [(? & ? & ? & [=])|?]]; done.
  - rewrite IH. split; [by right | by intros [(? & ? & ? & [=])|?]].
  - rewrite IH. split; [by right | by intros [(? & ? & ? & [=])|?]].
Qed.

Lemma exists_run (ops : list Op) (σ : State) (n : string) :
  exists_ n (run ops σ) =
    exists_ n σ || bool_decide (is_Some (first_define n ops)).
Proof.
  revert σ. induction ops as [|op ops IH]; intros σ; simpl.
  { by destruct (exists_ n σ). }
  rewrite IH, exists_exec. destruct (exists_ n σ); simpl; [done|].
  destruct op as [K m v d|K m v|K h v]; simpl; try done.
  destruct (decide (m = n)) as [Hm|Hm]; simpl.
  - by rewrite (bool_decide_eq_true_2 _ Hm).
  - by rewrite (bool_decide_eq_false_2 _ Hm).
Qed.

(** X9.  A name exists exactly when it was defined.  After any calls,
    [exists(n)] holds if it held before or one of the calls is a [define]
    of [n]; on the new registry, [exists(n)] holds exactly when some call
    was a [define] of [n].  Neither kind of update creates a name. *)
Theorem exists_iff_defined (ops : list Op) (n : string) (σ : State) :
  exists_ n (run ops σ)
    = exists_ n σ || bool_decide (is_Some (first_define n ops)) ∧
  (exists_ n (run ops instance) = true ↔ ∃ K v d, OpDefine K n v d ∈ ops) ∧
  (∀ K v, exists_ n (update K n v σ).2 = exists_ n σ) ∧
  (∀ K h v, exists_ n (handle_update K h v σ) = exists_ n σ).
Proof.
  split; [apply exists_run|]. split; [|split].
  - rewrite exists_run. change (exists_ n instance) with false.
    rewrite orb_false_l, bool_decide_eq_true.
    apply first_define_is_Some.
  - intros K v. change (update K n v σ).2 with (exec σ (OpUpdate K n v)).
    rewrite exists_exec. apply orb_false_r.
  - intros K h v.
    change (handle_update K h v σ) with (exec σ (OpHandleUpdate K h v)).
    rewrite exists_exec. apply orb_false_r.
Qed.

(** X10.  Nothing is ever removed.  After any further calls every name
    that existed still exists, every handle [get_all] returned is still
    returned, and [get_all] is at least as long. *)
Theorem never_removed (ops : list Op) (σ : State) :
  reachable σ →
  (∀ n, exists_ n σ = true → exists_ n (run ops σ) = true) ∧
  (∀ h, h ∈ get_all σ → h ∈ get_all (run ops σ)) ∧
  (length (get_all σ) ≤ length (get_all (run ops σ)))%nat.
Proof.
  intros Hok%reachable_ok.
  assert (∀ h, h ∈ get_all σ → h ∈ get_all (run ops σ)) as Hsub.
  { intros h [n Hn]%elem_of_get_all. apply elem_of_get_all.
    exists n. by apply get_run. }
  split; [|split; [done|]].
  - intros n Hn. rewrite exists_run, Hn. done.
  - apply submseteq_length, NoDup_submseteq; [by apply NoDup_get_all|done].
Qed.

Lemma never_removed_witness :
  exists_ "dark_mode"
    (run [OpUpdate KString "dark_mode" "off"; OpDefine KInt "retries" 3 ""]
       basic_usage) = true.
Proof.
  by apply (proj1 (never_removed
                     [OpUpdate KString "dark_mode" "off";
                      OpDefine KInt "retries" 3 ""]
                     basic_usage basic_usage_reachable)).
Defined.

(** ** What [define] and [update] do to the enumeration *)

(** X11.  A [define] of a new name adds its handle to [get_all], a handle
    that was not there, and adds nothing else; a [define] of a name that
    exists and an [update] leave [get_all] as it was. *)
Theorem get_all_define (K : Kind) (n : string) (v : carrier K) (d : string)
    (σ : State) :
  reachable σ →
  (exists_ n σ = false →
     (get_all (define K n v d σ).2 ≡ₚ (define K n v d σ).1 :: get_all σ) ∧
     ((define K n v d σ).1 ∉ get_all σ) ∧
     (get_all_names (define K n v d σ).2 ≡ₚ n :: get_all_names σ)) ∧
  (exists_ n σ = true → get_all (define K n v d σ).2 = get_all σ) ∧
  get_all (update K n v σ).2 = get_all σ.
Proof.
  intros Hreach. pose proof (reachable_ok σ Hreach) as Hok.
  split; [|split].
  - intros Hn.
    assert (registry_ok (define K n v d σ).2) as Hok'
      by by apply registry_ok_define.
    rewrite !get_all_names_keys by done.
    apply exists_false in Hn. unfold get_all, define, get in *.
    rewrite Hn; simpl. split; [|split].
    + by rewrite map_to_list_insert.
    + intros ([m h] & Hh & Hin%elem_of_map_to_list)%list_elem_of_fmap.
      simpl in Hh. subst h. destruct (Hok m _ Hin) as (f & Hf & _).
      apply lookup_lt_Some in Hf. lia.
    + by rewrite map_to_list_insert.
  - intros Hn. by rewrite lookup_flag_define_existing.
  - unfold update. by destruct (get n σ).
Qed.

Lemma get_all_define_witness :
  length (get_all (define KInt "retries" 3 "" basic_usage).2) = 5%nat ∧
  get_all (define KInt "max_connections" 3 "" basic_usage).2
  = get_all basic_usage.
Proof.
  destruct (get_all_define KInt "retries" 3 "" basic_usage
              basic_usage_reachable) as (H1 & _ & _).
  destruct (get_all_define KInt "max_connections" 3 "" basic_usage
              basic_usage_reachable) as (_ & H2 & _).
  split.
  - destruct (H1 eq_refl) as (Hp & _). by rewrite Hp.
  - by apply H2.
Defined.

Lemma heap_size_exec (op : Op) (σ : State) :
  length (heap σ) = size (flags_ σ) →
  length (heap (exec σ op)) = size (flags_ (exec σ op)).
Proof.
  intros Hsz. destruct op as [K n v d|K n v|K h v]; simpl.
  - unfold define. destruct (flags_ σ !! n) eqn:Hn; simpl; [done|].
    rewrite length_app, map_size_insert_None by done. simpl. lia.
  - unfold update. destruct (get n σ); simpl; [|done].
    by rewrite length_alter.
  - by rewrite length_alter.
Qed.

(** X12.  [define] constructs a flag only for a new name: in every
    reachable state there are as many [Flag] objects as registered names,
    and each object is enumerated by [get_all]. *)
Theorem one_flag_per_define (σ : State) :
  reachable σ →
  length (heap σ) = length (get_all σ) ∧
  (∀ h, is_Some (deref h σ) ↔ h ∈ get_all σ).
Proof.
  intros Hreach. pose proof (reachable_ok σ Hreach) as Hok.
  assert (length (heap σ) = size (flags_ σ)) as Hsz.
  { destruct Hreach as [ops ->]. unfold run.
    induction ops as [|op ops IH] using rev_ind; [done|].
    rewrite foldl_app. simpl. apply heap_size_exec, IH.
    apply registry_ok_run, registry_ok_instance. }
  rewrite length_get_all. split; [done|].
  assert (get_all σ ≡ₚ seq 0 (length (heap σ))) as Hperm.
  { apply submseteq_length_Permutation.
    - apply NoDup_submseteq; [by apply NoDup_get_all|].
      intros h [n Hn]%elem_of_get_all.
      destruct (Hok n h Hn) as (f & Hf%lookup_lt_Some & _).
      apply elem_of_seq. lia.
    - by rewrite length_seq, length_get_all, Hsz. }
  intros h. rewrite Hperm, elem_of_seq. unfold deref.
  rewrite lookup_lt_is_Some. lia.
Qed.

Lemma one_flag_per_define_witness :
  length (heap (define KInt "max_connections" 0 "again" basic_usage).2)
  = 4%nat.
Proof.
  eapply eq_trans; [|reflexivity].
  exact (proj1 (one_flag_per_define _
                  (reachable_exec (OpDefine KInt "max_connections" 0
                                     "again") _ basic_usage_reachable))).
Defined.

Lemma elem_of_get_all_names (σ : State) (n : string) :
  registry_ok σ → n ∈ get_all_names σ ↔ exists_ n σ = true.
Proof.
  intros Hok. rewrite (get_all_names_keys σ Hok), exists_true.
  rewrite list_elem_of_fmap. unfold get. split.
  - intros ([m h] & -> & Hin%elem_of_map_to_list). by exists h.
  - intros [h Hn]. exists (n, h). split; [done|].
    by apply elem_of_map_to_list.
Qed.

Lemma length_get_all_names (σ : State) :
  registry_ok σ → length (get_all_names σ) = length (get_all σ).
Proof.
  intros Hok. rewrite (get_all_names_keys σ Hok). unfold get_all.
  by rewrite !length_fmap.
Qed.

(** X13.  The "Get all flags" test, for any names: once calls have
    defined each name of a list, whatever else they did and whatever was
    registered before, the names read off [get_all] include every name of
    the list, and [get_all] is at least as long as a list without
    repetition. *)
Theorem defined_names_enumerated (ops : list Op) (ns : list string)
    (σ : State) :
  reachable σ →
  (∀ n, n ∈ ns → ∃ K v d, OpDefine K n v d ∈ ops) →
  (∀ n, n ∈ ns → n ∈ get_all_names (run ops σ)) ∧
  (NoDup ns → (length ns ≤ length (get_all (run ops σ)))%nat).
Proof.
  intros Hreach Hdef.
  assert (registry_ok (run ops σ)) as Hok
    by by apply registry_ok_run, reachable_ok.
  assert (∀ n, n ∈ ns → n ∈ get_all_names (run ops σ)) as Hin.
  { intros n Hn. apply elem_of_get_all_names; [done|].
    rewrite exists_run. apply orb_true_iff. right.
    apply bool_decide_eq_true, first_define_is_Some. by apply Hdef. }
  split; [done|]. intros Hnd.
  rewrite <- length_get_all_names by done.
  by apply submseteq_length, NoDup_submseteq.
Qed.

Lemma defined_names_enumerated_witness :
  "all_test_2" ∈ get_all_names
    (run [OpDefine KBool "all_test_1" true "";
          OpDefine KInt "all_test_2" 42 "";
          OpDefine KString "all_test_3" "hello" ""] basic_usage).
Proof.
  apply (defined_names_enumerated
           [OpDefine KBool "all_test_1" true "";
            OpDefine KInt "all_test_2" 42 "";
            OpDefine KString "all_test_3" "hello" ""]
           ["all_test_1"; "all_test_2"; "all_test_3"]
           basic_usage basic_usage_reachable).
  - intros n Hn. apply list_elem_of_In in Hn. simpl in Hn.
    destruct Hn as [<-|[<-|[<-|[]]]].
    + exists KBool, true, "". left.
    + exists KInt, 42, "". right; left.
    + exists KString, "hello", "". right; right; left.
  - right; left.
Defined.

(** ** The last write wins *)

Lemma stored_value_exec (op : Op) (σ : State) (n : string) (h : Handle) :
  registry_ok σ → get n σ = Some h →
  stored_value n (exec σ op) =
    match write_of n h op with
    | Some v => Some v
    | None => stored_value n σ
    end.
Proof.
  intros Hok Hn.
  assert (exists_ n σ = true) as Hex by (apply exists_true; by eexists).
  destruct (registry_ok_lookup_flag σ n h Hok Hn) as (f & _ & Hf & _).
  unfold stored_value.
  destruct op as [K m v d|K m v|K h' v]; simpl.
  - destruct (decide (n = m)) as [<-|Hm].
    + by rewrite lookup_flag_define_existing.
    + by rewrite lookup_flag_define_ne.
  - case_decide as Hm.
    + subst m. by rewrite lookup_flag_update, Hf.
    + rewrite lookup_flag_update_ne; done.
  - case_decide as Hh.
    + subst h'. by rewrite lookup_flag_handle_update_eq, Hf.
    + rewrite lookup_flag_handle_update_ne; [done | congruence].
Qed.

Lemma stored_value_run (ops : list Op) (σ : State) (n : string)
    (h : Handle) :
  registry_ok σ → get n σ = Some h →
  stored_value n (run ops σ) =
    match last_write n h ops with
    | Some v => Some v
    | None => stored_value n σ
    end.
Proof.
  revert σ. induction ops as [|op ops IH]; intros σ Hok Hn; simpl; [done|].
  rewrite IH by auto using registry_ok_exec, get_exec.
  destruct (last_write n h ops); [done|]. by apply stored_value_exec.
Qed.

Lemma last_write_app (n : string) (h : Handle) (l1 l2 : list Op) :
  last_write n h (l1 ++ l2) =
    match last_write n h l2 with
    | Some v => Some v
    | None => last_write n h l1
    end.
Proof.
  induction l1 as [|op l1 IH]; simpl.
  - by destruct (last_write n h l2).
  - rewrite IH. by destruct (last_write n h l2).
Qed.

(** X14.  The last write wins.  For a name [n] registered with handle
    [h], the value stored after any calls is the value of the last call
    among them that writes the flag, an [update] of [n] or a
    [Flag::update] through [h], and the value stored before if none does;
    a [define] is never a write.  So an update is read back after any
    calls that do not write the flag. *)
Theorem last_write_wins (ops ops' : list Op) (K : Kind) (n : string)
    (h : Handle) (v : carrier K) (σ : State) :
  reachable σ →
  get n σ = Some h →
  stored_value n (run ops σ) =
    match last_write n h ops with
    | Some w => Some w
    | None => stored_value n σ
    end ∧
  (last_write n h ops' = None →
   stored_value n (run (ops ++ OpUpdate K n v :: ops') σ)
     = Some (FlagValue_of K v) ∧
   get_value K n (run (ops ++ OpUpdate K n v :: ops') σ)
     = Some (as_param K v)).
Proof.
  intros Hok%reachable_ok Hn. split; [by apply stored_value_run|].
  intros Hnone.
  assert (stored_value n (run (ops ++ OpUpdate K n v :: ops') σ)
          = Some (FlagValue_of K v)) as Hst.
  { rewrite (stored_value_run _ σ n h Hok Hn), last_write_app. simpl.
    rewrite Hnone. by rewrite decide_True. }
  split; [done|]. rewrite get_value_stored, Hst. simpl.
  apply Value_get_FlagValue_of.
Qed.

Lemma last_write_wins_witness :
  get_value KInt "max_connections"
    (run ([OpUpdate KInt "max_connections" 150] ++
          OpUpdate KInt "max_connections" 200 ::
          [OpDefine KInt "max_connections" 0 "";
           OpUpdate KBool "dark_mode" false]) basic_usage)
  = Some 200.
Proof.
  exact (proj2 (proj2 (last_write_wins
                         [OpUpdate KInt "max_connections" 150]
                         [OpDefine KInt "max_connections" 0 "";
                          OpUpdate KBool "dark_mode" false]
                         KInt "max_connections" 1%nat 200 basic_usage
                         basic_usage_reachable eq_refl) eq_refl)).
Defined.

(** ** examples/thread_safety.cpp: the writers *)

Lemma writer_thread_S (k : nat) :
  writer_thread (S k) = writer_thread k ++ writer_iteration k.
Proof.
  unfold writer_thread. by rewrite seq_S, flat_map_app.
Qed.

(** Only [define] changes the map of the registry. *)
Lemma flags_run_no_define (ops : list Op) (σ : State) :
  Forall (λ op, is_define op = false) ops → flags_ (run ops σ) = flags_ σ.
Proof.
  revert σ. induction ops as [|op ops IH]; intros σ Hops; simpl; [done|].
  apply Forall_cons in Hops as [Hop Hops]. rewrite IH by done.
  destruct op as [K n v d|K n v|K h v]; simpl in *; [done| |done].
  unfold update. by destruct (get n σ).
Qed.

Lemma writer_thread_no_define (k : nat) :
  Forall (λ op, is_define op = false) (writer_thread k).
Proof.
  induction k as [|k IH]; [by constructor|].
  rewrite writer_thread_S. apply Forall_app. split; [done|].
  by repeat constructor.
Qed.

Lemma last_write_writer_iteration (k : nat) (h : Handle) :
  last_write "dark_mode" h (writer_iteration k)
    = Some (FV_bool (Z.of_nat k mod 2 =? 0)) ∧
  last_write "max_connections" h (writer_iteration k)
    = Some (FV_int (to_int (100 + Z.of_nat k))) ∧
  last_write "api_endpoint" h (writer_iteration k)
    = Some (FV_string
              ("https://api" +:+ pretty (Z.of_nat k) +:+ ".example.com")).
Proof.
  unfold writer_iteration, last_write, write_of.
  repeat split; repeat case_decide; done.
Qed.

Lemma last_write_writer_thread (k : nat) (n : string) (h : Handle) :
  n = "dark_mode" ∨ n = "max_connections" ∨ n = "api_endpoint" →
  last_write n h (writer_thread (S k)) = last_write n h (writer_iteration k).
Proof.
  intros Hn. rewrite writer_thread_S, last_write_app.
  destruct (last_write_writer_iteration k h) as (H1 & H2 & H3).
  destruct Hn as [->|[->| ->]]; by rewrite ?H1, ?H2, ?H3.
Qed.

(** What is read once the last write to each of the three flags is that of
    iteration [k]. *)
Lemma writer_final (k : nat) (ops : list Op) (σ : State) :
  registry_ok σ →
  exists_ "dark_mode" σ = true →
  exists_ "max_connections" σ = true →
  exists_ "api_endpoint" σ = true →
  (∀ n h, n = "dark_mode" ∨ n = "max_connections" ∨ n = "api_endpoint" →
          last_write n h ops = last_write n h (writer_iteration k)) →
  is_enabled "dark_mode" (run ops σ) = (Z.of_nat k mod 2 =? 0) ∧
  get_value KInt "max_connections" (run ops σ)
    = Some (to_int (100 + Z.of_nat k)) ∧
  get_value KString "api_endpoint" (run ops σ)
    = Some ("https://api" +:+ pretty (Z.of_nat k) +:+ ".example.com").
Proof.
  intros Hok [h1 Hd]%exists_true [h2 Hm]%exists_true [h3 Ha]%exists_true
    Hlast.
  rewrite is_enabled_stored, !get_value_stored.
  rewrite (stored_value_run ops σ _ h1 Hok Hd), Hlast by auto.
  rewrite (stored_value_run ops σ _ h2 Hok Hm), Hlast by auto.
  rewrite (stored_value_run ops σ _ h3 Hok Ha), Hlast by auto.
  destruct (last_write_writer_iteration k h1) as (-> & _ & _).
  destruct (last_write_writer_iteration k h2) as (_ & -> & _).
  by destruct (last_write_writer_iteration k h3) as (_ & _ & ->).
Qed.

(** X15.  One writer thread alone.  Where the three flags are defined,
    after [writer_thread(id, k + 1)] the flags hold what its last
    iteration wrote: [dark_mode] is enabled exactly for even [k],
    [max_connections] is [100 + k] (while that is an [int]) and
    [api_endpoint] is the URL numbered [k].  It defines no flag, and with
    no iterations it does nothing. *)
Theorem writer_thread_final (k : nat) (σ : State) :
  reachable σ →
  exists_ "dark_mode" σ = true →
  exists_ "max_connections" σ = true →
  exists_ "api_endpoint" σ = true →
  100 + Z.of_nat k ≤ INT_MAX →
  let σ' := run (writer_thread (S k)) σ in
  is_enabled "dark_mode" σ' = (Z.of_nat k mod 2 =? 0) ∧
  get_value KInt "max_connections" σ' = Some (100 + Z.of_nat k) ∧
  get_value KString "api_endpoint" σ'
    = Some ("https://api" +:+ pretty (Z.of_nat k) +:+ ".example.com") ∧
  get_all σ' = get_all σ ∧
  run (writer_thread 0) σ = σ.
Proof.
  intros Hok%reachable_ok Hd Hm Ha Hk σ'.
  destruct (writer_final k (writer_thread (S k)) σ Hok Hd Hm Ha)
    as (H1 & H2 & H3).
  { intros n h Hn. by apply last_write_writer_thread. }
  rewrite to_int_id in H2
    by (unfold is_int, INT_MIN, INT_BITS; simpl; lia).
  split; [done|]. split; [done|]. split; [done|]. split; [|done].
  unfold get_all. subst σ'.
  by rewrite (flags_run_no_define _ σ (writer_thread_no_define (S k))).
Qed.

Lemma thread_safety_reachable : reachable (run thread_safety_defines instance).
Proof. by eexists. Qed.

Lemma writer_thread_final_witness :
  get_value KInt "max_connections"
    (run (writer_thread 100) (run thread_safety_defines instance))
  = Some 199.
Proof.
  assert (100 + Z.of_nat 99 ≤ INT_MAX) as Hk by discriminate.
  exact (proj1 (proj2 (writer_thread_final 99 _ thread_safety_reachable
                         eq_refl eq_refl eq_refl Hk))).
Defined.

(** ** examples/thread_safety.cpp: two writers, and the readers *)

Lemma interleaving_app (l1 l2 : list Op) : interleaving l1 l2 (l1 ++ l2).
Proof.
  induction l1 as [|op l1 IH]; simpl; [|by constructor].
  induction l2 as [|op l2 IH]; simpl; by constructor.
Qed.

(** In an interleaving, the last write to a flag is the last write of one
    of the two threads. *)
Lemma last_write_interleaving (n : string) (h : Handle) (l1 l2 l : list Op) :
  interleaving l1 l2 l →
  (last_write n h l = last_write n h l1 ∨
   last_write n h l = last_write n h l2) ∧
  (last_write n h l = None →
   last_write n h l1 = None ∧ last_write n h l2 = None).
Proof.
  induction 1 as [|op l1 l2 l Hil [IHor IHnone]|op l1 l2 l Hil [IHor IHnone]];
    simpl; [by auto| |].
  - destruct (last_write n h l) as [v|] eqn:Hl.
    + split; [|done]. destruct IHor as [<-|<-]; auto.
    + destruct (IHnone eq_refl) as [-> ->]. auto.
  - destruct (last_write n h l) as [v|] eqn:Hl.
    + split; [|done]. destruct IHor as [<-|<-]; auto.
    + destruct (IHnone eq_refl) as [-> ->]. auto.
Qed.

(** X16.  Two writer threads.  In whatever order the calls of two
    [writer_thread(id, k + 1)] take effect, each thread's calls in its own
    order, the three flags end with what iteration [k] writes: the final
    values [main] prints do not depend on the schedule. *)
Theorem two_writers_final (k : nat) (ops : list Op) (σ : State) :
  reachable σ →
  exists_ "dark_mode" σ = true →
  exists_ "max_connections" σ = true →
  exists_ "api_endpoint" σ = true →
  100 + Z.of_nat k ≤ INT_MAX →
  interleaving (writer_thread (S k)) (writer_thread (S k)) ops →
  is_enabled "dark_mode" (run ops σ) = (Z.of_nat k mod 2 =? 0) ∧
  get_value KInt "max_connections" (run ops σ) = Some (100 + Z.of_nat k) ∧
  get_value KString "api_endpoint" (run ops σ)
    = Some ("https://api" +:+ pretty (Z.of_nat k) +:+ ".example.com").
Proof.
  intros Hok%reachable_ok Hd Hm Ha Hk Hil.
  destruct (writer_final k ops σ Hok Hd Hm Ha) as (H1 & H2 & H3).
  { intros n h Hn.
    destruct (last_write_interleaving n h _ _ _ Hil) as [[->| ->] _];
      by apply last_write_writer_thread. }
  rewrite to_int_id in H2
    by (unfold is_int, INT_MIN, INT_BITS; simpl; lia).
  done.
Qed.

Lemma two_writers_final_witness :
  let ops := writer_thread 100 ++ writer_thread 100 in
  let σ := run ops (run thread_safety_defines instance) in
  is_enabled "dark_mode" σ = false ∧
  get_value KInt "max_connections" σ = Some 199 ∧
  get_value KString "api_endpoint" σ = Some "https://api99.example.com".
Proof.
  assert (100 + Z.of_nat 99 ≤ INT_MAX) as Hk by discriminate.
  exact (two_writers_final 99 _ _ thread_safety_reachable
           eq_refl eq_refl eq_refl Hk (interleaving_app _ _)).
Defined.

Lemma last_write_elem (n : string) (h : Handle) (ops : list Op)
    (v : FlagValue) :
  last_write n h ops = Some v → ∃ op, op ∈ ops ∧ write_of n h op = Some v.
Proof.
  induction ops as [|op ops IH]; simpl; [done|].
  destruct (last_write n h ops) as [w|].
  - intros [= ->]. destruct (IH eq_refl) as (op' & Hin & Hw).
    exists op'. split; [by right | done].
  - intros Hw. exists op. split; [left | done].
Qed.

Lemma get_value_is_Some_kind (K : Kind) (n : string) (σ : State) :
  is_Some (get_value K n σ) ↔ kind_of <$> stored_value n σ = Some K.
Proof.
  rewrite get_value_stored. destruct (stored_value n σ) as [v|]; simpl.
  - rewrite Value_get_is_Some. split; congruence.
  - split; [by intros [? ?] | done].
Qed.

(** The writers keep the kind of each flag they write. *)
Lemma write_of_writer_kind (i : nat) (op : Op) (n : string) (h : Handle)
    (v : FlagValue) :
  op ∈ writer_iteration i → write_of n h op = Some v →
  (n = "max_connections" → kind_of v = KInt) ∧
  (n = "api_endpoint" → kind_of v = KString).
Proof.
  unfold writer_iteration. intros Hin Hw.
  repeat (apply elem_of_cons in Hin as [->|Hin]);
    [| | |by apply elem_of_nil in Hin];
    simpl in Hw; case_decide; try done; simplify_eq; by split.
Qed.

(** X17.  The readers never see a missing value or a changed kind.  In a
    state where [max_connections] reads as an [int] and [api_endpoint] as
    a string, after any calls made by writer threads, in any number and
    order, both still do; so the condition [dark_mode && max_conn &&
    endpoint] of [reader_thread] is the value of [dark_mode] alone. *)
Theorem readers_see_kinds (ops : list Op) (σ : State) :
  reachable σ →
  is_Some (get_value KInt "max_connections" σ) →
  is_Some (get_value KString "api_endpoint" σ) →
  Forall (λ op, ∃ i, op ∈ writer_iteration i) ops →
  is_Some (get_value KInt "max_connections" (run ops σ)) ∧
  is_Some (get_value KString "api_endpoint" (run ops σ)) ∧
  reader_counts (run ops σ) = is_enabled "dark_mode" (run ops σ).
Proof.
  intros Hok%reachable_ok Hm Ha Hops.
  assert (∀ K n, (n = "max_connections" → K = KInt) →
                 (n = "api_endpoint" → K = KString) →
                 n = "max_connections" ∨ n = "api_endpoint" →
                 is_Some (get_value K n σ) →
                 is_Some (get_value K n (run ops σ))) as Hkeep.
  { intros K n HKm HKa Hn Hsome.
    assert (∃ h, get n σ = Some h) as [h Hh].
    { unfold get_value in Hsome. destruct (get n σ); [by eexists|].
      by destruct Hsome. }
    apply get_value_is_Some_kind.
    rewrite (stored_value_run ops σ n h Hok Hh).
    destruct (last_write n h ops) as [v|] eqn:Hlast;
      [|by apply get_value_is_Some_kind].
    simpl. f_equal.
    destruct (last_write_elem n h ops v Hlast) as (op & Hin & Hw).
    rewrite Forall_forall in Hops. destruct (Hops op Hin) as [i Hi].
    destruct (write_of_writer_kind i op n h v Hi Hw) as [Hkm Hka].
    destruct Hn as [Hn|Hn]; [rewrite HKm | rewrite HKa]; auto. }
  assert (is_Some (get_value KInt "max_connections" (run ops σ))) as Hm'
    by (apply Hkeep; auto; done).
  assert (is_Some (get_value KString "api_endpoint" (run ops σ))) as Ha'
    by (apply Hkeep; auto; done).
  split; [done|]. split; [done|]. unfold reader_counts.
  rewrite !bool_decide_eq_true_2 by done. by rewrite !andb_true_r.
Qed.

Lemma readers_see_kinds_witness :
  reader_counts
    (run (writer_iteration 0 ++ writer_iteration 7)
       (run thread_safety_defines instance))
  = is_enabled "dark_mode"
      (run (writer_iteration 0 ++ writer_iteration 7)
         (run thread_safety_defines instance)).
Proof.
  refine (proj2 (proj2 (readers_see_kinds
                          (writer_iteration 0 ++ writer_iteration 7) _
                          thread_safety_reachable _ _ _))).
  - by eexists.
  - by eexists.
  - apply Forall_app. split; apply Forall_forall; intros op Hop;
      [exists 0%nat | exists 7%nat]; exact Hop.
Defined.

(** ** The conversion operators on flags *)

Lemma static_cast_get (K : Kind) (v : FlagValue) :
  static_cast K v = default (cast_default K) (Value_get K v).
Proof.
  by destruct K, v.
Qed.

(** X18.  The checks of the "Flag creation and retrieval" test, for every
    kind and value.  The handle a [define] of a new name returns points to
    a flag with that name and description whose value converts back with
    [static_cast<T>] to the value defined, and [get] returns that handle;
    the same conversion reads the value of a later [update]; a conversion
    at any other type gives that type's default. *)
Theorem static_cast_round_trip (K : Kind) (n : string) (v w : carrier K)
    (d : string) (σ : State) :
  reachable σ →
  exists_ n σ = false →
  valid K v →
  valid K w →
  let h := (define K n v d σ).1 in
  let σ1 := (define K n v d σ).2 in
  let σ2 := (update K n w σ1).2 in
  get n σ1 = Some h ∧
  Flag_name <$> deref h σ1 = Some n ∧
  Flag_description <$> deref h σ1 = Some d ∧
  static_cast K ∘ Flag_value <$> deref h σ1 = Some v ∧
  static_cast K ∘ Flag_value <$> deref h σ2 = Some w ∧
  (∀ J, J ≠ K →
        static_cast J ∘ Flag_value <$> deref h σ1 = Some (cast_default J)).
Proof.
  intros Hok%reachable_ok Hfresh%exists_false Hv%valid_as_param
    Hw%valid_as_param h σ1 σ2.
  assert (get n σ1 = Some h) as Hget by apply get_define.
  pose proof (lookup_flag_define_fresh K n v d σ Hfresh) as Hf.
  fold σ1 in Hf. unfold lookup_flag in Hf. rewrite Hget in Hf. simpl in Hf.
  assert (deref h σ2 = Some (Flag_update K w
                               (Flag_new n (FlagValue_of K v) d))) as Hf2.
  { subst σ2. rewrite (update_Some K n h w σ1 Hget). simpl.
    by rewrite deref_handle_update, decide_True, Hf. }
  rewrite Hf, Hf2. simpl.
  split; [done|]. split; [done|]. split; [done|].
  unfold Flag_value; simpl. rewrite !static_cast_get.
  rewrite !Value_get_FlagValue_of, Hv, Hw.
  split; [done|]. split; [done|].
  intros J HJ. rewrite static_cast_get.
  by rewrite (Value_get_other K J) by auto using kind_of_FlagValue_of.
Qed.

Lemma static_cast_round_trip_witness :
  let h := (define KInt "test_int" 42 "Test integer flag" basic_usage).1 in
  let σ1 := (define KInt "test_int" 42 "Test integer flag" basic_usage).2 in
  static_cast KInt ∘ Flag_value <$> deref h σ1 = Some 42 ∧
  static_cast KString ∘ Flag_value <$> deref h σ1 = Some EmptyString.
Proof.
  assert (valid KInt 42) as Hv by (split; discriminate).
  destruct (static_cast_round_trip KInt "test_int" 42 42
              "Test integer flag" basic_usage basic_usage_reachable
              eq_refl Hv Hv) as (_ & _ & _ & H1 & _ & H2).
  split; [exact H1|]. apply H2. discriminate.
Defined.
